(** * LectureGenie: the chunking and fan-out orchestration of [app.py]

    A shallow embedding of the four functions of [app.py]
    ([transcribe_audio], [summarize_text], [generate_questions] and
    [process_audio]) together with the properties the specification states
    about them.

    Conventions of the embedding.
    - A Python [str] is a list of Unicode code points ([list N]); [len] is
      [length] and slicing is [take]/[drop], as in CPython.
    - The three pretrained models are parameters (the module-level globals
      [whisper_model], [summarizer] and [question_generator]).
    - Effects (printing, the worker pools, the global sampling state and the
      output file) are threaded through an explicit [World], which also
      holds the choices of the thread scheduler and the health of the disk.
    - A task of a worker pool runs atomically; every order in which the
      tasks of a pool can complete is a choice of the scheduler.
    - The host is a POSIX one: text mode writes a newline as one byte. *)

From Stdlib Require Import Strings.String Strings.Ascii Strings.Byte.
From stdpp Require Import base numbers list gmap.

Local Open Scope nat_scope.

(** ** Python strings *)

Abbreviation codepoint := N (only parsing).
Abbreviation str := (list N) (only parsing).

(** A literal made of ASCII characters only. *)
Fixpoint py (s : string) : str :=
  match s with
  | EmptyString => []
  | String c r => N_of_ascii c :: py r
  end.

Definition LF : codepoint := 10%N.

(** [sep.join(l)] *)
Fixpoint join (sep : str) (l : list str) : str :=
  match l with
  | [] => []
  | [x] => x
  | x :: rest => x ++ sep ++ join sep rest
  end.

(** [range(start, stop, step)] for a positive [step]: CPython computes the
    number of items first, [ceil((stop - start) / step)]. *)
Definition range (start stop step : nat) : list nat :=
  (fun j => start + j * step) <$> seq 0 ((stop - start + (step - 1)) / step).

(** [s[i:j]] for [0 <= i <= j]; both bounds are clamped to [len(s)]. *)
Definition slice {A} (s : list A) (i j : nat) : list A :=
  take (j - i) (drop i s).

(** [[text[i:i+k] for i in range(0, len(text), k)]] *)
Definition chunks_of {A} (k : nat) (text : list A) : list (list A) :=
  (fun i => slice text i (i + k)) <$> range 0 (length text) k.

Definition CHUNK : nat := 1024.

(** The comprehension both adapters start with (lines 21 and 27). *)
Definition text_chunks (text : str) : list str := chunks_of CHUNK text.

(** ** Exceptions, model inputs and outputs *)

Inductive PyExn : Type :=
| LibraryError (origin : string) (code : nat)  (* raised inside a model library *)
| UnicodeEncodeError (pos : nat)               (* a code point [encode] rejects *)
| OSError (errno : nat)                        (* [open] / [write] failed *)
| CancelledError.                              (* a future that never ran *)

Inductive Result (A : Type) : Type :=
| Ok (a : A)
| Raise (e : PyExn).
Arguments Ok {A} a.
Arguments Raise {A} e.

Definition is_ok {A} (r : Result A) : bool :=
  match r with Ok _ => true | Raise _ => false end.

(** The dictionaries the three libraries answer with; only the fields that
    [app.py] reads are kept. *)
Record WhisperResult := { text : str; language : str }.
Record SummaryItem := { summary_text : str }.
Record GeneratedItem := { generated_text : str }.

(** Keyword arguments of a pipeline call. *)
Record GenKwargs := {
  max_length : nat;
  min_length : option nat;
  num_return_sequences : option nat;
  do_sample : bool }.

(** The process-wide sampling state (torch's global generator). *)
Definition RngState := N.

(** A model call reads and advances the sampling state and either answers or
    raises. *)
Definition Model (I O : Type) : Type := I -> RngState -> Result O * RngState.

(** The module-level globals of lines 9 to 11. *)
Record Models := {
  whisper_model : Model str WhisperResult;
  summarizer : Model (list str * GenKwargs) (list SummaryItem);
  question_generator : Model (str * GenKwargs) (list GeneratedItem) }.

(** ** The world: sampling state, scheduler, disk and event log *)

Inductive PoolId := OrchPool | QuestPool.

Inductive Event : Type :=
| EvPrint (line : str)
| EvSubmit (pool : PoolId) (fut : nat)
| EvTaskStart (pool : PoolId) (fut : nat)
| EvTaskDone (pool : PoolId) (fut : nat)
| EvAwait (pool : PoolId) (fut : nat)
| EvShutdown (pool : PoolId)
| EvWhisper (path : str)
| EvSummarizer (chunks : list str) (kw : GenKwargs)
| EvGenerator (prompt : str) (kw : GenKwargs)
| EvOpen (path : str)
| EvWrite (path : str) (data : list byte)
| EvClose (path : str).

Inductive DiskFault : Type :=
| OpenFails (e : PyExn)
| WriteFails (e : PyExn) (written : nat).

Record World := mkWorld {
  rng : RngState;
  oracle : list nat;                 (* the scheduler's coming choices *)
  files : gmap str (list byte);
  disk_fault : option DiskFault;
  trace : list Event }.              (* oldest event first *)

Definition log (ev : Event) (w : World) : World :=
  mkWorld (rng w) (oracle w) (files w) (disk_fault w) (trace w ++ [ev]).
Definition set_rng (g : RngState) (w : World) : World :=
  mkWorld g (oracle w) (files w) (disk_fault w) (trace w).
Definition set_oracle (o : list nat) (w : World) : World :=
  mkWorld (rng w) o (files w) (disk_fault w) (trace w).
Definition set_file (path : str) (data : list byte) (w : World) : World :=
  mkWorld (rng w) (oracle w) (<[path := data]> (files w)) (disk_fault w) (trace w).

(** ** Two small monads: state, and state with exceptions

    [do] sequences two steps that cannot raise; [run] sequences two
    statements, the second of which is skipped when the first raises. *)

Definition St (A : Type) : Type := World -> A * World.
Definition M (A : Type) : Type := St (Result A).

Definition st_ret {A} (a : A) : St A := fun w => (a, w).
Definition st_bind {A B} (m : St A) (k : A -> St B) : St B :=
  fun w => let '(a, w') := m w in k a w'.
Definition ret {A} (a : A) : M A := st_ret (Ok a).
Definition raise {A} (e : PyExn) : M A := st_ret (Raise e).
Definition bind {A B} (m : M A) (k : A -> M B) : M B :=
  st_bind m (fun r => match r with Ok a => k a | Raise e => raise e end).

Notation "'do' x <- m ; k" := (st_bind m (fun x => k))
  (at level 10, x name, m at level 100, k at level 200).
Notation "'do' ' pat <- m ; k" := (st_bind m (fun pat => k))
  (at level 10, pat pattern, m at level 100, k at level 200).
Notation "'run' x <- m ; k" := (bind m (fun x => k))
  (at level 10, x name, m at level 100, k at level 200).
Notation "'run' ' pat <- m ; k" := (bind m (fun pat => k))
  (at level 10, pat pattern, m at level 100, k at level 200).

Definition emit (ev : Event) : St unit := fun w => (tt, log ev w).
Definition print (line : str) : M unit := fun w => (Ok tt, log (EvPrint line) w).

Definition call_model {I O} (m : Model I O) (ev : Event) (input : I) : M O :=
  fun w => let '(r, g) := m input (rng w) in (r, set_rng g (log ev w)).

(** ** [concurrent.futures.ThreadPoolExecutor]

    A pool is the list of its futures in submission order; a future is its
    index.  A task runs atomically: the interleaving of two tasks is
    abstracted to the order in which they complete, and that order is chosen
    by the scheduler ([oracle]).  Workers make progress wherever the
    submitting thread can be preempted or is blocked: right after a
    submission, in [Future.result] (where at least the awaited task
    completes) and in the [shutdown(wait=True)] of the [with] block (where
    all of them complete). *)

Inductive Slot (A : Type) : Type :=
| Pending (task : M A)
| Done (r : Result A).
Arguments Pending {A} task.
Arguments Done {A} r.

Abbreviation Pool A := (list (Slot A)) (only parsing).

Fixpoint pending_from {A} (i : nat) (p : Pool A) : list nat :=
  match p with
  | [] => []
  | Pending _ :: rest => i :: pending_from (S i) rest
  | Done _ :: rest => pending_from (S i) rest
  end.
Definition pending_ids {A} (p : Pool A) : list nat := pending_from 0 p.

Definition next_choice : St nat :=
  fun w => match oracle w with
           | [] => (0, w)
           | c :: rest => (c, set_oracle rest w)
           end.

(** A worker runs task [i] to its end and stores what it returned or raised. *)
Definition run_task {A} (pid : PoolId) (i : nat) (p : Pool A) : St (Pool A) :=
  fun w => match p !! i with
           | Some (Pending t) =>
               let '(r, w') := t (log (EvTaskStart pid i) w) in
               (<[i := Done r]> p, log (EvTaskDone pid i) w')
           | _ => (p, w)
           end.

(** The next task to complete is any of the pending ones. *)
Definition step {A} (pid : PoolId) (p : Pool A) : St (Pool A) :=
  match pending_ids p with
  | [] => st_ret p
  | ids => do c <- next_choice;
           match ids !! (c mod length ids) with
           | Some i => run_task pid i p
           | None => st_ret p
           end
  end.

Fixpoint run_some {A} (n : nat) (pid : PoolId) (p : Pool A) : St (Pool A) :=
  match n with
  | 0 => st_ret p
  | S n' => do p' <- step pid p; run_some n' pid p'
  end.

(** A point where the submitting thread can be preempted: the scheduler
    lets as many pending tasks complete as it likes. *)
Definition yield {A} (pid : PoolId) (p : Pool A) : St (Pool A) :=
  do n <- next_choice;
  run_some n pid p.

(** [executor.submit(fn, arg)] *)
Definition submit {A} (pid : PoolId) (task : M A) (p : Pool A) : St (Pool A * nat) :=
  do _ <- emit (EvSubmit pid (length p));
  do p' <- yield pid (p ++ [Pending task]);
  st_ret (p', length p).

Fixpoint wait_for {A} (fuel : nat) (pid : PoolId) (f : nat) (p : Pool A) : St (Pool A) :=
  match p !! f with
  | Some (Pending _) =>
      match fuel with
      | 0 => st_ret p
      | S n => do p' <- step pid p; wait_for n pid f p'
      end
  | _ => st_ret p
  end.

(** [future.result()]: block until the future is done, then hand over its
    value or its exception. *)
Definition future_result {A} (pid : PoolId) (f : nat) (p : Pool A) : St (Pool A * Result A) :=
  do p1 <- wait_for (length p) pid f p;
  do p2 <- yield pid p1;
  do _ <- emit (EvAwait pid f);
  st_ret (p2, match p2 !! f with
              | Some (Done r) => r
              | _ => Raise CancelledError
              end).

Fixpoint run_all {A} (fuel : nat) (pid : PoolId) (p : Pool A) : St (Pool A) :=
  match pending_ids p, fuel with
  | _ :: _, S n => do p' <- step pid p; run_all n pid p'
  | _, _ => st_ret p
  end.

(** [executor.shutdown(wait=True)] *)
Definition shutdown {A} (pid : PoolId) (p : Pool A) : St unit :=
  do _ <- run_all (length p) pid p;
  emit (EvShutdown pid).

(** [with ThreadPoolExecutor() as executor: body]; the pool is shut down on
    the normal and on the exceptional exit. *)
Definition with_executor {A B} (pid : PoolId)
    (body : Pool A -> St (Pool A * Result B)) : M B :=
  do '(p, r) <- body [];
  do _ <- shutdown pid p;
  st_ret r.

(** [x = fut.result(); rest] inside a [with] block. *)
Definition await {A B} (pid : PoolId) (f : nat) (p : Pool A)
    (k : Pool A -> A -> St (Pool A * Result B)) : St (Pool A * Result B) :=
  do '(p', r) <- future_result pid f p;
  match r with
  | Ok a => k p' a
  | Raise e => st_ret (p', Raise e)
  end.

(** ** Writing the report: text mode, [encoding="utf-8"] *)

Definition byte_of (n : N) : byte := default x00 (Byte.of_N n).

Definition utf8_encode_cp (c : codepoint) : option (list byte) :=
  if (c <? 0x80)%N then Some [byte_of c]
  else if (c <? 0x800)%N then
    Some [byte_of (N.lor 0xC0 (N.shiftr c 6));
          byte_of (N.lor 0x80 (N.land c 0x3F))]
  else if (c <? 0x10000)%N then
    if ((0xD800 <=? c) && (c <=? 0xDFFF))%N then None
    else Some [byte_of (N.lor 0xE0 (N.shiftr c 12));
               byte_of (N.lor 0x80 (N.land (N.shiftr c 6) 0x3F));
               byte_of (N.lor 0x80 (N.land c 0x3F))]
  else if (c <? 0x110000)%N then
    Some [byte_of (N.lor 0xF0 (N.shiftr c 18));
          byte_of (N.lor 0x80 (N.land (N.shiftr c 12) 0x3F));
          byte_of (N.lor 0x80 (N.land (N.shiftr c 6) 0x3F));
          byte_of (N.lor 0x80 (N.land c 0x3F))]
  else None.

Fixpoint utf8_encode_from (pos : nat) (s : str) : Result (list byte) :=
  match s with
  | [] => Ok []
  | c :: rest =>
      match utf8_encode_cp c with
      | None => Raise (UnicodeEncodeError pos)
      | Some bs =>
          match utf8_encode_from (S pos) rest with
          | Ok tail => Ok (bs ++ tail)
          | Raise e => Raise e
          end
      end
  end.
Definition utf8_encode (s : str) : Result (list byte) := utf8_encode_from 0 s.

(** [open(path, "w", encoding="utf-8")]: the file is truncated as soon as it
    is opened. *)
Definition open_w (path : str) : M unit :=
  fun w => match disk_fault w with
           | Some (OpenFails e) => (Raise e, w)
           | _ => (Ok tt, log (EvOpen path) (set_file path [] w))
           end.

(** [f.write(s)], with the line separator of a POSIX host (no newline
    translation). *)
Definition file_write (path : str) (s : str) : M unit :=
  fun w => match utf8_encode s with
           | Raise e => (Raise e, w)
           | Ok data =>
               match disk_fault w with
               | Some (WriteFails e n) => (Raise e, set_file path (take n data) w)
               | _ => (Ok tt, log (EvWrite path data) (set_file path data w))
               end
           end.

(** [with open(path, "w", encoding="utf-8") as f: f.write(s)] *)
Definition write_text (path : str) (s : str) : M unit :=
  run _ <- open_w path;
  do r <- file_write path s;
  do _ <- emit (EvClose path);
  st_ret r.

(** ** The four functions of [app.py] *)

Definition SUMMARY_KWARGS : GenKwargs :=
  {| max_length := 200; min_length := Some 50;
     num_return_sequences := None; do_sample := false |}.
Definition QUESTION_KWARGS : GenKwargs :=
  {| max_length := 120; min_length := None;
     num_return_sequences := Some 3; do_sample := true |}.

Definition PROMPT_PREFIX : str :=
  py "You are an AI tutor. Your task is to generate **insightful, topic-specific** questions based on the following passage. Ensure that the questions are relevant to the **key concepts, definitions, and explanations** present in the text. Avoid generic questions."
  ++ [LF; LF] ++ py "Passage:" ++ [LF].

Definition HEADER_TRANSCRIPT : str := [0x1F4DD%N] ++ py " Transcription:" ++ [LF].
Definition HEADER_SUMMARY : str := [0x1F4DC%N] ++ py " Summary:" ++ [LF].
Definition HEADER_QUESTIONS : str := [0x1F914%N] ++ py " Practice Questions:" ++ [LF].
Definition FILE_PATH : str := py "lecture_summary.txt".

Definition transcribe_audio (ms : Models) (audio_path : str) : M str :=
  run _ <- print (py "Transcribing audio...");
  run result <- call_model (whisper_model ms) (EvWhisper audio_path) audio_path;
  ret (text result).

Definition summarize_text (ms : Models) (text : str) : M str :=
  run _ <- print (py "Summarizing text using BART...");
  let text_chunks := text_chunks text in
  run summaries <- call_model (summarizer ms)
                     (EvSummarizer text_chunks SUMMARY_KWARGS)
                     (text_chunks, SUMMARY_KWARGS);
  ret (join (py " ") (summary_text <$> summaries)).

(** The lambda handed to [executor.submit] for one chunk. *)
Definition question_task (ms : Models) (chunk : str) : M (list GeneratedItem) :=
  call_model (question_generator ms)
    (EvGenerator (PROMPT_PREFIX ++ chunk) QUESTION_KWARGS)
    (PROMPT_PREFIX ++ chunk, QUESTION_KWARGS).

(** [[executor.submit(...) for chunk in text_chunks]] *)
Fixpoint submit_all {A} (pid : PoolId) (tasks : list (M A)) (p : Pool A)
    : St (Pool A * list nat) :=
  match tasks with
  | [] => st_ret (p, [])
  | t :: rest =>
      do '(p1, f) <- submit pid t p;
      do '(p2, fs) <- submit_all pid rest p1;
      st_ret (p2, f :: fs)
  end.

(** [for future in future_questions: questions.extend(...)] *)
Fixpoint collect_questions (futures : list nat) (questions : list str)
    (p : Pool (list GeneratedItem)) : St (Pool (list GeneratedItem) * Result (list str)) :=
  match futures with
  | [] => st_ret (p, Ok questions)
  | future :: rest =>
      await QuestPool future p (fun p' generated =>
        collect_questions rest (questions ++ (generated_text <$> generated)) p')
  end.

(** The list [questions] as it stands when the [with] block is left. *)
Definition question_list (ms : Models) (text : str) : M (list str) :=
  run _ <- print (py "Generating questions using FLAN-T5...");
  let text_chunks := text_chunks text in
  with_executor QuestPool (fun executor =>
    do '(executor, future_questions) <-
       submit_all QuestPool (question_task ms <$> text_chunks) executor;
    collect_questions future_questions [] executor).

Definition generate_questions (ms : Models) (text : str) : M str :=
  run questions <- question_list ms text;
  ret (join [LF] questions).

Definition combined_text (transcript summary questions : str) : str :=
  HEADER_TRANSCRIPT ++ transcript ++ [LF; LF] ++
  HEADER_SUMMARY ++ summary ++ [LF; LF] ++
  HEADER_QUESTIONS ++ questions.

Definition process_audio (ms : Models) (audio_path : str) : M (str * str * str * str) :=
  run '(transcript, summary, questions) <-
    with_executor OrchPool (fun executor =>
      do '(executor, transcribe_future) <-
         submit OrchPool (transcribe_audio ms audio_path) executor;
      await OrchPool transcribe_future executor (fun executor transcript =>
      do '(executor, summarize_future) <-
         submit OrchPool (summarize_text ms transcript) executor;
      do '(executor, questions_future) <-
         submit OrchPool (generate_questions ms transcript) executor;
      await OrchPool summarize_future executor (fun executor summary =>
      await OrchPool questions_future executor (fun executor questions =>
      st_ret (executor, Ok (transcript, summary, questions))))));
  let file_path := FILE_PATH in
  run _ <- write_text file_path (combined_text transcript summary questions);
  ret (transcript, summary, questions, file_path).

Definition gradio_interface (ms : Models) (audio : str) : M (str * str * str * str) :=
  process_audio ms audio.

(** ** Vocabulary of the statements *)

(** A model that ignores and leaves the sampling state: a deterministic stub. *)
Definition stub {I O} (f : I -> Result O) : Model I O := fun i g => (f i, g).

(** Neither the files nor the disk's health changed between [w] and [w']. *)
Definition same_disk (w w' : World) : Prop :=
  files w' = files w /\ disk_fault w' = disk_fault w.

(** [w'] is [w] after some more events, all of which satisfy [P]. *)
Definition extends_by (P : Event -> Prop) (w w' : World) : Prop :=
  exists tr, trace w' = trace w ++ tr /\ Forall P tr.

(** A pool only grows more finished: no future is added and a finished
    future keeps its result. *)
Definition evolves {A} (p p' : Pool A) : Prop :=
  length p' = length p /\
  forall i r, p !! i = Some (Done r) -> p' !! i = Some (Done r).

Definition result_map {A B} (f : A -> B) (r : Result A) : Result B :=
  match r with Ok a => Ok (f a) | Raise e => Raise e end.

(** What a model call on one chunk answers when the sampling state is [g]. *)
Definition quest_answer (ms : Models) (chunk : str) (g : RngState)
    : Result (list GeneratedItem) :=
  (question_generator ms (PROMPT_PREFIX ++ chunk, QUESTION_KWARGS) g).1.

Definition sum_answer (ms : Models) (transcript : str) (g : RngState) : Result str :=
  result_map (fun sums => join (py " ") (summary_text <$> sums))
    (summarizer ms (text_chunks transcript, SUMMARY_KWARGS) g).1.

(** The per-chunk answers taken in chunk order: the first exception wins,
    otherwise the candidates are flattened group after group. *)
Fixpoint gather (outs : list (Result (list GeneratedItem))) (acc : list str)
    : Result (list str) :=
  match outs with
  | [] => Ok acc
  | Ok generated :: rest => gather rest (acc ++ (generated_text <$> generated))
  | Raise e :: _ => Raise e
  end.

(** Reading finished futures of a pool in the order [futures]. *)
Fixpoint read_results (p : Pool (list GeneratedItem)) (futures : list nat)
    (acc : list str) : option (Result (list str)) :=
  match futures with
  | [] => Some (Ok acc)
  | f :: rest =>
      match p !! f with
      | Some (Done (Ok generated)) =>
          read_results p rest (acc ++ (generated_text <$> generated))
      | Some (Done (Raise e)) => Some (Raise e)
      | _ => None
      end
  end.

(** The events of the question pool and of its tasks. *)
Definition quest_event (ev : Event) : bool :=
  match ev with
  | EvGenerator _ _ => true
  | EvSubmit QuestPool _ | EvTaskStart QuestPool _ | EvTaskDone QuestPool _
  | EvAwait QuestPool _ | EvShutdown QuestPool => true
  | _ => false
  end.

(** A slot of the question pool belongs to chunk [c]: it holds the call for
    [c], or what that call answered. *)
Definition slot_for (ms : Models) (c : str) (s : Slot (list GeneratedItem)) : Prop :=
  s = Pending (question_task ms c) \/ exists g, s = Done (quest_answer ms c g).

Definition answer_for (ms : Models) (c : str) (r : Result (list GeneratedItem)) : Prop :=
  exists g, r = quest_answer ms c g.

(** The futures submitted so far belong to the first chunks, in order. *)
Definition quest_inv (ms : Models) (cs : list str) (w0 : World)
    (p : Pool (list GeneratedItem)) (w : World) : Prop :=
  Forall2 (slot_for ms) (take (length p) cs) p /\
  same_disk w0 w /\ extends_by quest_event w0 w.

(** The orchestrator's [with] block (lines 48 to 56) in two named parts, so
    that each can be talked about on its own; [process_audio] unfolds to
    them. *)
Definition downstream_block (ms : Models) (transcript : str) (executor : Pool str)
    : St (Pool str * Result (str * str * str)) :=
  do '(executor, summarize_future) <-
     submit OrchPool (summarize_text ms transcript) executor;
  do '(executor, questions_future) <-
     submit OrchPool (generate_questions ms transcript) executor;
  await OrchPool summarize_future executor (fun executor summary =>
  await OrchPool questions_future executor (fun executor questions =>
  st_ret (executor, Ok (transcript, summary, questions)))).

Definition executor_block (ms : Models) (audio_path : str) : M (str * str * str) :=
  with_executor OrchPool (fun executor =>
    do '(executor, transcribe_future) <-
       submit OrchPool (transcribe_audio ms audio_path) executor;
    await OrchPool transcribe_future executor (fun executor transcript =>
    downstream_block ms transcript executor)).

(** What the summarization task and the question task of one transcript can
    answer. *)
Definition sum_outcome (ms : Models) (transcript : str) (r : Result str) : Prop :=
  exists g, r = sum_answer ms transcript g.

Definition quest_outcome (ms : Models) (transcript : str) (r : Result str) : Prop :=
  exists outs,
    Forall2 (answer_for ms) (text_chunks transcript) outs /\
    r = result_map (join [LF]) (gather outs []).

Definition SUMMARIZING : str := py "Summarizing text using BART...".
Definition GENERATING : str := py "Generating questions using FLAN-T5...".

(** The events of the transcription phase, in order. *)
Definition transcription_events (audio_path : str) : list Event :=
  [EvSubmit OrchPool 0; EvTaskStart OrchPool 0;
   EvPrint (py "Transcribing audio..."); EvWhisper audio_path;
   EvTaskDone OrchPool 0; EvAwait OrchPool 0].

(** The events that belong to summarization or to question generation: the
    two tasks starting and ending, their progress lines, their model calls
    and everything the question pool does. *)
Definition downstream_event (ev : Event) : bool :=
  quest_event ev ||
  match ev with
  | EvPrint line => bool_decide (line = SUMMARIZING) || bool_decide (line = GENERATING)
  | EvSummarizer _ _ => true
  | EvTaskStart OrchPool (S _) | EvTaskDone OrchPool (S _) => true
  | _ => false
  end.

(** A slot of the orchestrator pool after the transcription: it holds its
    task, or the task is done, its result is one the task can answer and its
    mark (an event only this task emits) is among the events [tr]. *)
Definition orch_slot (task : M str) (outcome : Result str -> Prop) (mark : Event)
    (tr : list Event) (s : Slot str) : Prop :=
  s = Pending task \/ exists r, s = Done r /\ outcome r /\ mark ∈ tr.

(** [wb] is the world in which the summarization task was submitted; the
    question task joins the pool a little later. *)
Definition orch_slots (ms : Models) (transcript : str) (wb : World)
    (p : Pool str) (w : World) : Prop :=
  exists trb s1 q,
    trace w = trace wb ++ trb /\
    p = Done (Ok transcript) :: s1 :: q /\
    orch_slot (summarize_text ms transcript) (sum_outcome ms transcript)
      (EvSummarizer (text_chunks transcript) SUMMARY_KWARGS) trb s1 /\
    (q = [] \/
     exists s2, q = [s2] /\
       orch_slot (generate_questions ms transcript) (quest_outcome ms transcript)
         (EvPrint GENERATING) trb s2).

(** The pool of the orchestrator while the transcription is its only task. *)
Definition transcribing_inv (ms : Models) (audio_path : str) (w0 : World)
    (p : Pool str) (w : World) : Prop :=
  same_disk w0 w /\
  ((p = [Pending (transcribe_audio ms audio_path)] /\
    rng w = rng w0 /\
    trace w = trace w0 ++ [EvSubmit OrchPool 0]) \/
   (p = [Done (result_map text (whisper_model ms audio_path (rng w0)).1)] /\
    trace w = trace w0 ++ [EvSubmit OrchPool 0; EvTaskStart OrchPool 0;
                           EvPrint (py "Transcribing audio..."); EvWhisper audio_path;
                           EvTaskDone OrchPool 0])).

(** [w0] is the world at the start of the current wait. *)
Definition orch_inv (ms : Models) (transcript : str) (wb w0 : World)
    (p : Pool str) (w : World) : Prop :=
  orch_slots ms transcript wb p w /\
  same_disk w0 w /\ extends_by downstream_event w0 w.

(** The tuple the [with] block leaves behind, from the two task results. *)
Definition block_result (transcript : str) (rs rq : Result str) : Result (str * str * str) :=
  match rs with
  | Raise e => Raise e
  | Ok summary =>
      match rq with
      | Raise e => Raise e
      | Ok questions => Ok (transcript, summary, questions)
      end
  end.

(** Deterministic stubs for the three models, and what the two adapters
    answer on them. *)
Record Stubs := {
  stub_whisper : str -> Result WhisperResult;
  stub_summarizer : list str * GenKwargs -> Result (list SummaryItem);
  stub_generator : str * GenKwargs -> Result (list GeneratedItem) }.

Definition stub_models (sb : Stubs) : Models :=
  {| whisper_model := stub (stub_whisper sb);
     summarizer := stub (stub_summarizer sb);
     question_generator := stub (stub_generator sb) |}.

Definition stub_summary (sb : Stubs) (transcript : str) : Result str :=
  result_map (fun sums => join (py " ") (summary_text <$> sums))
    (stub_summarizer sb (text_chunks transcript, SUMMARY_KWARGS)).

Definition stub_answers (sb : Stubs) (transcript : str)
    : list (Result (list GeneratedItem)) :=
  (fun c => stub_generator sb (PROMPT_PREFIX ++ c, QUESTION_KWARGS))
    <$> text_chunks transcript.

Definition stub_questions (sb : Stubs) (transcript : str) : Result str :=
  result_map (join [LF]) (gather (stub_answers sb transcript) []).

(** The fixed pieces of the report, as the bytes that reach the file. *)
Definition utf8_or_empty (s : str) : list byte :=
  match utf8_encode s with Ok data => data | Raise _ => [] end.
Definition HEADER_TRANSCRIPT_UTF8 : list byte :=
  Eval vm_compute in utf8_or_empty HEADER_TRANSCRIPT.
Definition HEADER_SUMMARY_UTF8 : list byte :=
  Eval vm_compute in utf8_or_empty HEADER_SUMMARY.
Definition HEADER_QUESTIONS_UTF8 : list byte :=
  Eval vm_compute in utf8_or_empty HEADER_QUESTIONS.
Definition BLANK_LINE_UTF8 : list byte := [byte_of 10; byte_of 10].

(** The three sections of the report file, in order. *)
Definition report_bytes (transcript summary questions : list byte) : list byte :=
  HEADER_TRANSCRIPT_UTF8 ++ transcript ++ BLANK_LINE_UTF8 ++
  HEADER_SUMMARY_UTF8 ++ summary ++ BLANK_LINE_UTF8 ++
  HEADER_QUESTIONS_UTF8 ++ questions.

(** The events of a completed write of the report. *)
Definition write_events (path : str) (data : list byte) : list Event :=
  [EvOpen path; EvWrite path data; EvClose path].

(** The stubs of the end-to-end example of the specification. *)
Definition hello_stubs (audio_path : str) : Stubs :=
  {| stub_whisper := fun p =>
       if bool_decide (p = audio_path)
       then Ok {| text := py "hello world"; language := py "en" |}
       else Raise (LibraryError "whisper" 2);
     stub_summarizer := fun '(chunks, _) =>
       Ok ((fun _ => {| summary_text := py "SUM" |}) <$> chunks);
     stub_generator := fun _ =>
       Ok [ {| generated_text := py "Q1" |};
            {| generated_text := py "Q2" |};
            {| generated_text := py "Q3" |} ] |}.

(** Stubs whose candidates name the passage they were asked about: the
    first character of the passage followed by 1, 2 and 3. *)
Definition echo_stubs : Stubs :=
  {| stub_whisper := fun _ => Raise (LibraryError "whisper" 2);
     stub_summarizer := fun '(chunks, _) =>
       Ok ((fun c => {| summary_text := take 1 c |}) <$> chunks);
     stub_generator := fun '(prompt, _) =>
       let passage := drop (length PROMPT_PREFIX) prompt in
       Ok [ {| generated_text := take 1 passage ++ py "1" |};
            {| generated_text := take 1 passage ++ py "2" |};
            {| generated_text := take 1 passage ++ py "3" |} ] |}.

(** A transcript of two chunks: 1024 times the letter a, then one b. *)
Definition two_chunk_text : str := replicate 1024 97%N ++ [98%N].

(** A fresh world with a healthy disk, and one whose scheduler lets no task
    complete at the first two submissions and then lets the second of two
    pending tasks complete first. *)
Definition fresh_world : World := mkWorld 0%N [] ∅ None [].
Definition late_first_world : World := mkWorld 0%N [0; 0; 1] ∅ None [].

(** The events that [w'] has and [w] had not yet. *)
Definition new_events (w w' : World) : list Event :=
  drop (length (trace w)) (trace w').

(** The futures of the question pool in the order in which they completed. *)
Definition completion_order (tr : list Event) : list nat :=
  omap (fun ev => match ev with EvTaskDone QuestPool i => Some i | _ => None end) tr.

(** The question block had it followed the completion order of the tasks:
    the groups of candidates taken in the order [order]. *)
Definition questions_in_order (sb : Stubs) (transcript : str) (order : list nat)
    : Result str :=
  result_map (join [LF])
    (gather ((fun i => default (Raise CancelledError) (stub_answers sb transcript !! i))
               <$> order) []).

(** The total length of a list of strings. *)
Definition total_length (l : list str) : nat := sum_list (length <$> l).

(** All candidates of all groups, group after group. *)
Definition flatten_groups (groups : list (list GeneratedItem)) : list str :=
  concat ((fun group : list GeneratedItem => generated_text <$> group) <$> groups).

(** What the [with] block of the orchestrator leaves behind on stubs. *)
Definition stub_block (sb : Stubs) (audio_path : str) : Result (str * str * str) :=
  match stub_whisper sb audio_path with
  | Raise e => Raise e
  | Ok res =>
      block_result (text res) (stub_summary sb (text res)) (stub_questions sb (text res))
  end.

(** The events of the file write. *)
Definition file_event (ev : Event) : bool :=
  match ev with
  | EvOpen _ | EvWrite _ _ | EvClose _ => true
  | _ => false
  end.

(** Stubs for the failure cases: the summarizer raises, or the question
    generator raises; and a transcription stub that hears nothing. *)
Definition no_summary_stubs : Stubs :=
  {| stub_whisper := fun _ => Ok {| text := py "hello world"; language := py "en" |};
     stub_summarizer := fun _ => Raise (LibraryError "summarizer" 1);
     stub_generator := stub_generator (hello_stubs []) |}.

Definition no_questions_stubs : Stubs :=
  {| stub_whisper := fun _ => Ok {| text := py "hello world"; language := py "en" |};
     stub_summarizer := stub_summarizer (hello_stubs []);
     stub_generator := fun _ => Raise (LibraryError "generator" 1) |}.

Definition silent_stubs : Stubs :=
  {| stub_whisper := fun _ => Ok {| text := []; language := py "en" |};
     stub_summarizer := stub_summarizer (hello_stubs []);
     stub_generator := stub_generator (hello_stubs []) |}.

(** A world whose disk is full: nothing of a write reaches the file. *)
Definition full_disk_world : World :=
  mkWorld 0%N [] ∅ (Some (WriteFails (OSError 28) 0)) [].

(** The orchestrator pool's own events, and those of the file. *)
Definition orch_pool_event (ev : Event) : bool :=
  match ev with
  | EvSubmit OrchPool _ | EvTaskStart OrchPool _ | EvTaskDone OrchPool _
  | EvAwait OrchPool _ | EvShutdown OrchPool => true
  | _ => file_event ev
  end.

(** The code points [str.encode("utf-8")] rejects: the surrogates, which a
    Python string can hold, and what lies beyond the last code point. *)
Definition unencodable (c : codepoint) : Prop :=
  (0xD800 <= c <= 0xDFFF)%N \/ (0x110000 <= c)%N.

(** A transcription stub that answers a lone surrogate. *)
Definition surrogate_stubs : Stubs :=
  {| stub_whisper := fun _ => Ok {| text := [0xD800%N]; language := py "en" |};
     stub_summarizer := stub_summarizer (hello_stubs []);
     stub_generator := stub_generator (hello_stubs []) |}.

(** Worlds that hold an earlier report, on a healthy disk, on a disk that
    refuses to open files and on one that fails after three bytes. *)
Definition old_report : list byte := [byte_of 111; byte_of 108; byte_of 100].
Definition used_world : World :=
  mkWorld 0%N [] {[ FILE_PATH := old_report ]} None [].
Definition locked_world : World :=
  mkWorld 0%N [] {[ FILE_PATH := old_report ]} (Some (OpenFails (OSError 13))) [].
Definition failing_disk_world : World :=
  mkWorld 0%N [] {[ FILE_PATH := old_report ]} (Some (WriteFails (OSError 5) 3)) [].

(** The same test on code points, as a function. *)
Definition unencodableb (c : codepoint) : bool :=
  ((0xD800 <=? c) && (c <=? 0xDFFF) || (0x110000 <=? c))%N.

(** *** Footprints: what the tasks of a pool leave in the event log

    [P] selects the events of interest.  The footprint of the task in slot
    [i] is what a complete run of it, from its start event to its end
    event, adds to the selected events, up to their order. *)
Definition task_footprint {A} (pid : PoolId) (P : Event -> bool) (i : nat)
    (t : M A) (fp : list Event) : Prop :=
  forall w, exists tr,
    trace (t w).2 = trace w ++ tr /\
    filter P (EvTaskStart pid i :: tr ++ [EvTaskDone pid i]) ≡ₚ fp.

Definition done_footprint {A} (sf : Slot A * list Event) : option (list Event) :=
  match sf.1 with
  | Done _ => Some sf.2
  | Pending _ => None
  end.

(** The footprints of the finished slots of a pool. *)
Definition done_footprints {A} (p : Pool A) (fps : list (list Event)) : list Event :=
  concat (omap done_footprint (zip p fps)).

(** Slot [i] of the pool is to leave the footprint [fps !! i]; the selected
    events logged since [w0] are those of the finished slots. *)
Definition footprint_inv {A} (pid : PoolId) (P : Event -> bool)
    (fps : list (list Event)) (w0 : World) (p : Pool A) (w : World) : Prop :=
  length p <= length fps /\
  (forall i t fp, p !! i = Some (Pending t) -> fps !! i = Some fp ->
                  task_footprint pid P i t fp) /\
  exists tr, trace w = trace w0 ++ tr /\ filter P tr ≡ₚ done_footprints p fps.

(** The calls of the three models. *)
Definition model_call (ev : Event) : bool :=
  match ev with
  | EvWhisper _ | EvSummarizer _ _ | EvGenerator _ _ => true
  | _ => false
  end.

(** The events that end a task of the question pool. *)
Definition quest_done (ev : Event) : bool :=
  match ev with
  | EvTaskDone QuestPool _ => true
  | _ => false
  end.

(** The events of the thread that owns pool [pid], apart from the file. *)
Definition owner_event (pid : PoolId) (ev : Event) : Prop :=
  match ev with
  | EvPrint _ => True
  | EvSubmit q _ | EvAwait q _ => q = pid
  | EvShutdown q => q = pid
  | _ => False
  end.

(** The call of the question generator for one chunk. *)
Definition generator_call (chunk : str) : Event :=
  EvGenerator (PROMPT_PREFIX ++ chunk) QUESTION_KWARGS.

(** What the task of chunk [c] in slot [i] leaves in the log. *)
Definition question_footprint (P : Event -> bool) (i : nat) (c : str) : list Event :=
  filter P [EvTaskStart QuestPool i; generator_call c; EvTaskDone QuestPool i].

(** ** The definitions at work *)

Example range_three_starts : range 0 2049 1024 = [0; 1024; 2048].
Proof. reflexivity. Qed.

Example slice_clamps : slice (py "hello") 3 1027 = py "lo".
Proof. reflexivity. Qed.

Example two_chunk_lengths : length <$> text_chunks two_chunk_text = [1024; 1].
Proof. vm_compute. reflexivity. Qed.

Example join_three : join (py " ") [py "a"; py "b"; py "c"] = py "a b c".
Proof. reflexivity. Qed.

Example utf8_memo : utf8_encode [0x1F4DD%N] = Ok [byte_of 0xF0; byte_of 0x9F; byte_of 0x93; byte_of 0x9D].
Proof. reflexivity. Qed.

Example utf8_two_and_three_bytes :
  utf8_encode [0xE9%N; 0x20AC%N] =
    Ok [byte_of 0xC3; byte_of 0xA9; byte_of 0xE2; byte_of 0x82; byte_of 0xAC].
Proof. reflexivity. Qed.

Example utf8_lone_surrogate : utf8_encode (py "ab" ++ [0xD800%N]) = Raise (UnicodeEncodeError 2).
Proof. reflexivity. Qed.

(** The orchestrator's own events in a run on the stubs of the end-to-end
    example, with a scheduler that lets the question task complete first. *)
Example hello_run_pool_events :
  filter orch_pool_event
    (trace (process_audio (stub_models (hello_stubs (py "lecture.mp3")))
              (py "lecture.mp3") (mkWorld 0%N [0; 0; 0; 0; 0; 1] ∅ None [])).2) =
  [EvSubmit OrchPool 0; EvTaskStart OrchPool 0; EvTaskDone OrchPool 0; EvAwait OrchPool 0;
   EvSubmit OrchPool 1; EvSubmit OrchPool 2;
   EvTaskStart OrchPool 2; EvTaskDone OrchPool 2;
   EvTaskStart OrchPool 1; EvTaskDone OrchPool 1;
   EvAwait OrchPool 1; EvAwait OrchPool 2; EvShutdown OrchPool;
   EvOpen FILE_PATH;
   EvWrite FILE_PATH
     (report_bytes (utf8_or_empty (py "hello world")) (utf8_or_empty (py "SUM"))
        (utf8_or_empty (py "Q1" ++ [LF] ++ py "Q2" ++ [LF] ++ py "Q3")));
   EvClose FILE_PATH].
Proof. vm_compute. reflexivity. Qed.

(** ** The chunker *)

Section Chunker.
Context {A : Type}.
Variable k : nat.
Hypothesis k_pos : 0 < k.

Lemma range_length (n : nat) : length (range 0 n k) = (n + (k - 1)) / k.
Proof. unfold range. rewrite length_fmap, length_seq. f_equal. lia. Qed.

Lemma ceil_step (n : nat) : 0 < n -> (n + (k - 1)) / k = S ((n - k + (k - 1)) / k).
Proof.
  intros Hn. destruct (decide (n < k)) as [Hlt|Hge].
  - replace (n - k) with 0 by lia.
    rewrite (Nat.div_small (0 + (k - 1)) k) by lia.
    assert (H1 : k * 1 <= n + (k - 1)) by lia.
    assert (H2 : n + (k - 1) < k * 2) by lia.
    apply Nat.div_le_lower_bound in H1; [|lia].
    apply Nat.Div0.div_lt_upper_bound in H2. lia.
  - replace (n + (k - 1)) with ((n - k + (k - 1)) + 1 * k) by lia.
    rewrite Nat.div_add by lia. lia.
Qed.

Lemma chunks_of_nil : chunks_of k (@nil A) = [].
Proof.
  unfold chunks_of, range. simpl.
  rewrite Nat.div_small by lia. reflexivity.
Qed.

Lemma chunks_of_cons (s : list A) :
  s <> [] -> chunks_of k s = take k s :: chunks_of k (drop k s).
Proof.
  intros Hs. assert (Hlen : 0 < length s) by (destruct s; simpl; [done|lia]).
  unfold chunks_of, range. rewrite !Nat.sub_0_r.
  rewrite (ceil_step _ Hlen), length_drop.
  rewrite <- cons_seq, !fmap_cons. f_equal.
  - unfold slice. simpl. f_equal. lia.
  - rewrite <- fmap_S_seq, <- !list_fmap_compose.
    apply list_fmap_ext. intros _ j _. simpl. unfold slice.
    rewrite drop_drop. f_equal. lia.
Qed.

Lemma chunks_of_ind (P : list A -> Prop) :
  P [] -> (forall s, s <> [] -> P (drop k s) -> P s) -> forall s, P s.
Proof.
  intros Hnil Hstep s.
  remember (length s) as n eqn:Hn.
  revert s Hn. induction (lt_wf n) as [n _ IH]. intros s ->.
  destruct s as [|a s]; [exact Hnil|].
  apply Hstep; [done|]. eapply IH; [|reflexivity].
  rewrite length_drop. simpl. lia.
Qed.

Lemma concat_chunks_of (s : list A) : concat (chunks_of k s) = s.
Proof.
  induction s as [|s Hs IH] using chunks_of_ind.
  - by rewrite chunks_of_nil.
  - rewrite chunks_of_cons by done. simpl. rewrite IH. apply take_drop.
Qed.

Lemma chunks_of_length (s : list A) :
  length (chunks_of k s) = (length s + (k - 1)) / k.
Proof. unfold chunks_of. by rewrite length_fmap, range_length. Qed.

Lemma chunks_of_nonempty (s : list A) : s <> [] -> chunks_of k s <> [].
Proof. intros Hs. by rewrite chunks_of_cons. Qed.

(** Every chunk but the last is full. *)
Lemma chunks_of_full (s : list A) (i : nat) (c : list A) :
  chunks_of k s !! i = Some c -> S i < length (chunks_of k s) -> length c = k.
Proof.
  revert i. induction s as [|s Hs IH] using chunks_of_ind; intros i.
  - by rewrite chunks_of_nil.
  - rewrite chunks_of_cons by done. destruct i as [|i]; simpl.
    + intros [= <-] Hlt. rewrite length_take.
      destruct (drop k s) as [|a r] eqn:Hd.
      * rewrite chunks_of_nil in Hlt. simpl in Hlt. lia.
      * assert (length (drop k s) = S (length r)) as Hl by (by rewrite Hd).
        rewrite length_drop in Hl. lia.
    + intros Hc Hlt. apply (IH i); [done|lia].
Qed.

(** No chunk is empty, and none is longer than [k]. *)
Lemma chunks_of_bounds (s : list A) (c : list A) :
  c ∈ chunks_of k s -> 0 < length c <= k.
Proof.
  induction s as [|s Hs IH] using chunks_of_ind.
  - rewrite chunks_of_nil. by intros ?%elem_of_nil.
  - rewrite chunks_of_cons by done. intros [->|Hin]%elem_of_cons; [|auto].
    rewrite length_take. destruct s; [done|simpl; lia].
Qed.

(** [(n + (k - 1)) / k] is the ceiling of [n / k]. *)
Lemma ceil_spec (n : nat) :
  n <= (n + (k - 1)) / k * k < n + k.
Proof.
  pose proof (Nat.div_mod_eq (n + (k - 1)) k) as Hdm.
  pose proof (Nat.mod_upper_bound (n + (k - 1)) k ltac:(lia)) as Hm.
  nia.
Qed.

Lemma chunks_of_single (s : list A) :
  0 < length s <= k -> chunks_of k s = [s].
Proof.
  intros [Hpos Hle]. rewrite chunks_of_cons by (destruct s; [simpl in Hpos; lia|done]).
  rewrite take_ge, drop_ge by lia. by rewrite chunks_of_nil.
Qed.
End Chunker.

(** ** The world and the monads *)

Lemma same_disk_refl w : same_disk w w.
Proof. by split. Qed.

Lemma same_disk_trans w1 w2 w3 : same_disk w1 w2 -> same_disk w2 w3 -> same_disk w1 w3.
Proof. intros [H1 H2] [H3 H4]. split; congruence. Qed.

Lemma same_disk_log ev w : same_disk w (log ev w).
Proof. by split. Qed.

Lemma same_disk_next_choice w : same_disk w (next_choice w).2.
Proof. unfold next_choice. destruct (oracle w); by split. Qed.

Lemma trace_next_choice w : trace (next_choice w).2 = trace w.
Proof. unfold next_choice. by destruct (oracle w). Qed.

Lemma extends_by_refl P w : extends_by P w w.
Proof. exists []. by rewrite app_nil_r. Qed.

Lemma extends_by_trans P w1 w2 w3 :
  extends_by P w1 w2 -> extends_by P w2 w3 -> extends_by P w1 w3.
Proof.
  intros (t1 & E1 & F1) (t2 & E2 & F2). exists (t1 ++ t2). split.
  - by rewrite E2, E1, app_assoc.
  - by apply Forall_app.
Qed.

Lemma extends_by_log (P : Event -> Prop) ev w : P ev -> extends_by P w (log ev w).
Proof. intros H. exists [ev]. split; [done|by constructor]. Qed.

Lemma extends_by_same_trace P w w' : trace w' = trace w -> extends_by P w w'.
Proof. intros H. exists []. by rewrite app_nil_r. Qed.

Lemma extends_by_mono (P Q : Event -> Prop) w w' :
  (forall ev, P ev -> Q ev) -> extends_by P w w' -> extends_by Q w w'.
Proof. intros H (tr & E & F). exists tr. split; [done|]. eapply Forall_impl; eauto. Qed.

(** ** The worker pool *)

Section PoolFacts.
Context {A : Type}.
Implicit Types (p : Pool A) (w : World).

Lemma evolves_refl p : evolves p p.
Proof. by split. Qed.

Lemma evolves_trans p1 p2 p3 : evolves p1 p2 -> evolves p2 p3 -> evolves p1 p3.
Proof. intros [L1 D1] [L2 D2]. split; [congruence|auto]. Qed.

Lemma evolves_finish p i t r :
  p !! i = Some (Pending t) -> evolves p (<[i := Done r]> p).
Proof.
  intros Hi. split; [by rewrite length_insert|].
  intros j r' Hj. destruct (decide (i = j)) as [->|Hne]; [congruence|].
  by rewrite list_lookup_insert_ne.
Qed.

Lemma elem_of_pending_from b p i :
  i ∈ pending_from b p <-> b <= i /\ exists t, p !! (i - b) = Some (Pending t).
Proof.
  revert b. induction p as [|[t|r] p IH]; intros b; simpl.
  - split; [by intros ?%elem_of_nil|by intros (_ & ? & ?)].
  - rewrite elem_of_cons, IH. split.
    + intros [->|(Hle & t' & Ht')].
      * split; [lia|]. exists t. by rewrite Nat.sub_diag.
      * split; [lia|]. exists t'. by replace (i - b) with (S (i - S b)) by lia.
    + intros (Hle & t' & Ht'). destruct (decide (i = b)) as [->|Hne]; [by left|right].
      split; [lia|]. exists t'. by replace (i - b) with (S (i - S b)) in Ht' by lia.
  - rewrite IH. split.
    + intros (Hle & t' & Ht'). split; [lia|]. exists t'.
      by replace (i - b) with (S (i - S b)) by lia.
    + intros (Hle & t' & Ht'). destruct (decide (i = b)) as [->|Hne].
      * by rewrite Nat.sub_diag in Ht'.
      * split; [lia|]. exists t'. by replace (i - b) with (S (i - S b)) in Ht' by lia.
Qed.

Lemma elem_of_pending_ids p i :
  i ∈ pending_ids p <-> exists t, p !! i = Some (Pending t).
Proof.
  unfold pending_ids. rewrite elem_of_pending_from, Nat.sub_0_r.
  split; [by intros [_ ?]|intros ?; split; [lia|done]].
Qed.

Lemma pending_from_finish b p i t r :
  p !! i = Some (Pending t) ->
  S (length (pending_from b (<[i := Done r]> p))) = length (pending_from b p).
Proof.
  revert b i. induction p as [|[t'|r'] p IH]; intros b [|i] Hi; simpl in *; try done.
  - f_equal. by apply IH.
  - by apply IH.
Qed.

Lemma pending_from_length b p : length (pending_from b p) <= length p.
Proof.
  revert b. induction p as [|[t|r] p IH]; intros b; simpl; [lia| |].
  - specialize (IH (S b)). lia.
  - specialize (IH (S b)). lia.
Qed.

(** What one scheduling step does: nothing when no task is pending, and
    otherwise it completes one of the pending tasks. *)
Lemma step_cases pid p w :
  (pending_ids p = [] /\ step pid p w = (p, w)) \/
  (exists i t, p !! i = Some (Pending t) /\
               step pid p w = run_task pid i p (next_choice w).2).
Proof.
  unfold step. destruct (pending_ids p) as [|i0 ids] eqn:Hids; [by left|right].
  unfold st_bind. destruct (next_choice w) as [c w1] eqn:Hc. simpl.
  destruct (lookup_lt_is_Some_2 (i0 :: ids) (c mod length (i0 :: ids))) as [i Hi].
  { apply Nat.mod_upper_bound. done. }
  simpl in Hi |- *. rewrite Hi.
  assert (i ∈ pending_ids p) as [t Ht]%elem_of_pending_ids.
  { rewrite Hids. by eapply list_elem_of_lookup_2. }
  by exists i, t.
Qed.

Lemma run_task_pending pid p w i t :
  p !! i = Some (Pending t) ->
  run_task pid i p w =
    (<[i := Done (t (log (EvTaskStart pid i) w)).1]> p,
     log (EvTaskDone pid i) (t (log (EvTaskStart pid i) w)).2).
Proof. intros Hi. unfold run_task. rewrite Hi. by destruct (t _). Qed.

(** *** Invariants of a pool whose tasks all respect them *)

Section Invariant.
Variable pid : PoolId.
Variable Inv : Pool A -> World -> Prop.
Hypothesis Inv_choice : forall p w, Inv p w -> Inv p (next_choice w).2.
Hypothesis Inv_run : forall p w i t,
  Inv p w -> p !! i = Some (Pending t) ->
  Inv (<[i := Done (t (log (EvTaskStart pid i) w)).1]> p)
      (log (EvTaskDone pid i) (t (log (EvTaskStart pid i) w)).2).

Lemma step_inv p w : Inv p w -> Inv (step pid p w).1 (step pid p w).2.
Proof.
  intros H. destruct (step_cases pid p w) as [[_ ->]|(i & t & Hi & ->)]; [done|].
  rewrite (run_task_pending _ _ _ _ _ Hi). simpl. by apply Inv_run; [apply Inv_choice|].
Qed.

Lemma wait_for_inv fuel f p w :
  Inv p w -> Inv (wait_for fuel pid f p w).1 (wait_for fuel pid f p w).2.
Proof.
  revert p w. induction fuel as [|n IH]; intros p w H; simpl.
  - by destruct (p !! f) as [[?|?]|].
  - destruct (p !! f) as [[?|?]|]; try done.
    unfold st_bind. pose proof (step_inv p w H) as Hs.
    destruct (step pid p w) as [p1 w1]. by apply IH.
Qed.

Lemma run_all_inv fuel p w :
  Inv p w -> Inv (run_all fuel pid p w).1 (run_all fuel pid p w).2.
Proof.
  revert p w. induction fuel as [|n IH]; intros p w H; simpl.
  - by destruct (pending_ids p).
  - destruct (pending_ids p); [done|].
    unfold st_bind. pose proof (step_inv p w H) as Hs.
    destruct (step pid p w) as [p1 w1]. by apply IH.
Qed.
Lemma run_some_inv n p w :
  Inv p w -> Inv (run_some n pid p w).1 (run_some n pid p w).2.
Proof.
  revert p w. induction n as [|n IH]; intros p w H; simpl; [done|].
  unfold st_bind. pose proof (step_inv p w H) as Hs.
  destruct (step pid p w) as [p1 w1]. by apply IH.
Qed.

Lemma yield_inv p w : Inv p w -> Inv (yield pid p w).1 (yield pid p w).2.
Proof.
  intros H. unfold yield, st_bind. pose proof (Inv_choice p w H) as Hc.
  destruct (next_choice w) as [n w1]. by apply run_some_inv.
Qed.
End Invariant.

(** *** Progress: an awaited future is eventually done *)

Lemma step_progress pid p w :
  pending_ids p <> [] ->
  S (length (pending_ids (step pid p w).1)) = length (pending_ids p) /\
  length (step pid p w).1 = length p.
Proof.
  intros Hne. destruct (step_cases pid p w) as [[? _]|(i & t & Hi & ->)]; [done|].
  rewrite (run_task_pending _ _ _ _ _ Hi). simpl.
  split; [by eapply pending_from_finish|by rewrite length_insert].
Qed.

Lemma wait_for_done pid fuel f p w :
  f < length p -> length (pending_ids p) <= fuel ->
  exists r, (wait_for fuel pid f p w).1 !! f = Some (Done r).
Proof.
  revert p w. induction fuel as [|n IH]; intros p w Hf Hfuel.
  - destruct (lookup_lt_is_Some_2 p f Hf) as [[t|r] Hs]; simpl; rewrite Hs.
    + assert (f ∈ pending_ids p) as Hin by (apply elem_of_pending_ids; eauto).
      destruct (pending_ids p); [by apply elem_of_nil in Hin|simpl in Hfuel; lia].
    + simpl. eauto.
  - destruct (lookup_lt_is_Some_2 p f Hf) as [[t|r] Hs]; simpl; rewrite Hs.
    + assert (pending_ids p <> []) as Hne.
      { intros E. assert (f ∈ pending_ids p) as Hin by (apply elem_of_pending_ids; eauto).
        rewrite E in Hin. by apply elem_of_nil in Hin. }
      unfold st_bind. destruct (step_progress pid p w Hne) as [Hp Hl].
      destruct (step pid p w) as [p1 w1]. simpl in *. apply IH; lia.
    + simpl. eauto.
Qed.

Lemma run_all_done pid fuel p w :
  length (pending_ids p) <= fuel -> pending_ids (run_all fuel pid p w).1 = [].
Proof.
  revert p w. induction fuel as [|n IH]; intros p w Hfuel; simpl.
  - destruct (pending_ids p) eqn:E; [done|simpl in Hfuel; lia].
  - destruct (pending_ids p) eqn:E; [done|].
    assert (pending_ids p <> []) as Hne by (by rewrite E).
    unfold st_bind. destruct (step_progress pid p w Hne) as [Hp Hl].
    destruct (step pid p w) as [p1 w1]. simpl in *. apply IH. rewrite E in Hp. simpl in Hp. lia.
Qed.
End PoolFacts.

(** *** [Future.result] and [shutdown] under an invariant *)

Section PoolRules.
Context {A : Type}.
Variable pid : PoolId.
Variable Inv : Pool A -> World -> Prop.
Hypothesis Inv_choice : forall p w, Inv p w -> Inv p (next_choice w).2.
Hypothesis Inv_run : forall p w i t,
  Inv p w -> p !! i = Some (Pending t) ->
  Inv (<[i := Done (t (log (EvTaskStart pid i) w)).1]> p)
      (log (EvTaskDone pid i) (t (log (EvTaskStart pid i) w)).2).

Lemma evolves_invariant (p0 : Pool A) :
  forall p w i t,
    evolves p0 p -> p !! i = Some (Pending t) ->
    evolves p0 (<[i := Done (t (log (EvTaskStart pid i) w)).1]> p).
Proof. intros p w i t H Hi. eapply evolves_trans; [done|by eapply evolves_finish]. Qed.

Let Both (p0 : Pool A) : Pool A -> World -> Prop :=
  fun p w => Inv p w /\ evolves p0 p.

Lemma Both_choice p0 p w : Both p0 p w -> Both p0 p (next_choice w).2.
Proof. intros [? ?]. split; [by apply Inv_choice|done]. Qed.

Lemma Both_run p0 p w i t :
  Both p0 p w -> p !! i = Some (Pending t) ->
  Both p0 (<[i := Done (t (log (EvTaskStart pid i) w)).1]> p)
       (log (EvTaskDone pid i) (t (log (EvTaskStart pid i) w)).2).
Proof. intros [? ?] Hi. split; [by apply Inv_run|by eapply evolves_invariant]. Qed.

Lemma wait_for_spec fuel f p w :
  Inv p w ->
  Inv (wait_for fuel pid f p w).1 (wait_for fuel pid f p w).2 /\
  evolves p (wait_for fuel pid f p w).1.
Proof.
  intros H. apply (wait_for_inv pid (Both p) (Both_choice p) (Both_run p)).
  split; [done|apply evolves_refl].
Qed.

Lemma run_all_spec fuel p w :
  Inv p w ->
  Inv (run_all fuel pid p w).1 (run_all fuel pid p w).2 /\
  evolves p (run_all fuel pid p w).1.
Proof.
  intros H. apply (run_all_inv pid (Both p) (Both_choice p) (Both_run p)).
  split; [done|apply evolves_refl].
Qed.

Lemma yield_spec p w :
  Inv p w ->
  Inv (yield pid p w).1 (yield pid p w).2 /\ evolves p (yield pid p w).1.
Proof.
  intros H. apply (yield_inv pid (Both p) (Both_choice p) (Both_run p)).
  split; [done|apply evolves_refl].
Qed.

(** [executor.submit] adds one future at the end of the pool; earlier
    tasks, and the new one, may complete before it returns. *)
Lemma submit_spec task p w :
  Inv (p ++ [Pending task]) (log (EvSubmit pid (length p)) w) ->
  exists p' w',
    submit pid task p w = ((p', length p), w') /\
    Inv p' w' /\ evolves (p ++ [Pending task]) p'.
Proof.
  intros H. unfold submit, st_bind, emit, st_ret.
  destruct (yield_spec _ _ H) as [HI Hev].
  destruct (yield pid (p ++ [Pending task]) _) as [p' w']. by exists p', w'.
Qed.

(** [future.result()] returns with the future done, and hands over exactly
    what the task returned or raised. *)
Lemma future_result_spec f p w :
  Inv p w -> f < length p ->
  exists p' w' r,
    future_result pid f p w = ((p', r), log (EvAwait pid f) w') /\
    Inv p' w' /\ evolves p p' /\ p' !! f = Some (Done r).
Proof.
  intros H Hf. unfold future_result, st_bind, emit, st_ret.
  destruct (wait_for_spec (length p) f p w H) as [HI Hev].
  destruct (wait_for_done pid (length p) f p w Hf) as [r Hr].
  { apply pending_from_length. }
  destruct (wait_for (length p) pid f p w) as [p1 w1]. simpl in *.
  destruct (yield_spec _ _ HI) as [HI2 Hev2].
  destruct (yield pid p1 w1) as [p2 w2]. simpl in *.
  exists p2, w2, r. pose proof (proj2 Hev2 _ _ Hr) as Hr2. rewrite Hr2.
  split; [done|]. split; [done|]. split; [|done].
  by eapply evolves_trans.
Qed.

(** Leaving the [with] block waits for every task. *)
Lemma shutdown_spec p w :
  Inv p w ->
  exists p' w',
    shutdown pid p w = (tt, log (EvShutdown pid) w') /\
    Inv p' w' /\ evolves p p' /\ pending_ids p' = [].
Proof.
  intros H. unfold shutdown, st_bind, emit.
  destruct (run_all_spec (length p) p w H) as [HI Hev].
  pose proof (run_all_done pid (length p) p w (pending_from_length 0 p)) as Hd.
  destruct (run_all (length p) pid p w) as [p' w']. simpl in *.
  by exists p', w'.
Qed.
End PoolRules.

(** ** The question pool of [generate_questions] *)

Lemma call_model_run {I O} (m : Model I O) ev (input : I) w :
  call_model m ev input w =
    ((m input (rng w)).1, set_rng (m input (rng w)).2 (log ev w)).
Proof. unfold call_model. by destruct (m input (rng w)). Qed.

Lemma question_task_run ms c w :
  (question_task ms c w).1 = quest_answer ms c (rng w) /\
  same_disk w (question_task ms c w).2 /\
  trace (question_task ms c w).2 =
    trace w ++ [EvGenerator (PROMPT_PREFIX ++ c) QUESTION_KWARGS].
Proof. unfold question_task. rewrite call_model_run. by repeat split. Qed.

Section QuestionPool.
Variable ms : Models.
Variable cs : list str.
Variable w0 : World.

Lemma quest_inv_choice p w : quest_inv ms cs w0 p w -> quest_inv ms cs w0 p (next_choice w).2.
Proof.
  intros (Hs & Hd & He). split; [done|]. split.
  - eapply same_disk_trans; [done|apply same_disk_next_choice].
  - eapply extends_by_trans; [done|]. apply extends_by_same_trace, trace_next_choice.
Qed.

Lemma quest_inv_run p w i t :
  quest_inv ms cs w0 p w -> p !! i = Some (Pending t) ->
  quest_inv ms cs w0
    (<[i := Done (t (log (EvTaskStart QuestPool i) w)).1]> p)
    (log (EvTaskDone QuestPool i) (t (log (EvTaskStart QuestPool i) w)).2).
Proof.
  intros (Hs & Hd & He) Hi.
  destruct (Forall2_lookup_r _ _ _ _ _ Hs Hi) as (c & Hc & [[= ->]|[g [=]]]).
  destruct (question_task_run ms c (log (EvTaskStart QuestPool i) w)) as (Hr & Hd' & Ht').
  split; [|split].
  - rewrite length_insert. rewrite <- (list_insert_id _ i c Hc).
    apply Forall2_insert; [done|]. right. rewrite Hr. eauto.
  - eapply same_disk_trans; [done|]. eapply same_disk_trans; [apply same_disk_log|].
    eapply same_disk_trans; [done|apply same_disk_log].
  - eapply extends_by_trans; [done|].
    exists [EvTaskStart QuestPool i; EvGenerator (PROMPT_PREFIX ++ c) QUESTION_KWARGS;
            EvTaskDone QuestPool i].
    split; [|by repeat constructor].
    simpl. rewrite Ht'. simpl. by rewrite <- !app_assoc.
Qed.

Lemma quest_inv_log p w ev :
  quest_event ev -> quest_inv ms cs w0 p w -> quest_inv ms cs w0 p (log ev w).
Proof.
  intros Hev (Hs & Hd & He). split; [done|]. split.
  - eapply same_disk_trans; [done|apply same_disk_log].
  - eapply extends_by_trans; [done|by apply extends_by_log].
Qed.

(** Submitting the task of the next chunk keeps the futures in chunk order. *)
Lemma quest_inv_submit p w c :
  quest_inv ms cs w0 p w -> cs !! length p = Some c ->
  quest_inv ms cs w0 (p ++ [Pending (question_task ms c)])
    (log (EvSubmit QuestPool (length p)) w).
Proof.
  intros (Hs & Hd & He) Hc. split; [|split].
  - rewrite length_app. simpl. rewrite Nat.add_1_r, (take_S_r _ _ _ Hc).
    apply Forall2_app; [done|]. constructor; [by left|done].
  - eapply same_disk_trans; [done|apply same_disk_log].
  - eapply extends_by_trans; [done|by apply extends_by_log].
Qed.

(** The comprehension submits one task per chunk, in chunk order, and
    returns the futures in that order. *)
Lemma submit_all_spec rest p w :
  quest_inv ms cs w0 p w -> drop (length p) cs = rest ->
  exists p' w',
    submit_all QuestPool (question_task ms <$> rest) p w =
      ((p', seq (length p) (length rest)), w') /\
    quest_inv ms cs w0 p' w' /\ length p' = length cs.
Proof.
  revert p w. induction rest as [|c rest IH]; intros p w HI Hdrop.
  - exists p, w. simpl. split; [done|]. split; [done|].
    destruct HI as (Hs & _). apply Forall2_length in Hs. rewrite length_take in Hs.
    apply drop_nil_inv in Hdrop. lia.
  - assert (cs !! length p = Some c) as Hc.
    { rewrite <- (Nat.add_0_r (length p)), <- lookup_drop, Hdrop. done. }
    rewrite fmap_cons. cbn [submit_all length]. unfold st_bind.
    destruct (submit_spec QuestPool (quest_inv ms cs w0) quest_inv_choice quest_inv_run
                (question_task ms c) p w (quest_inv_submit p w c HI Hc))
      as (p1 & w1 & -> & HI1 & [Hl1 _]).
    rewrite length_app in Hl1. simpl in Hl1.
    destruct (IH p1 w1 HI1) as (p2 & w2 & -> & HI2 & Hl2).
    { rewrite Hl1, Nat.add_1_r. by rewrite (drop_S _ _ _ Hc) in Hdrop; injection Hdrop. }
    exists p2, w2. rewrite Hl1, Nat.add_1_r. done.
Qed.

Lemma read_results_evolves p p' futures acc r :
  evolves p p' -> read_results p futures acc = Some r ->
  read_results p' futures acc = Some r.
Proof.
  intros [_ Hev]. revert acc. induction futures as [|f rest IH]; intros acc; simpl; [done|].
  destruct (p !! f) as [[t|[g|e]]|] eqn:Hf; try done.
  - rewrite (Hev _ _ Hf). apply IH.
  - by rewrite (Hev _ _ Hf).
Qed.

(** The loop over the futures reads them in the order of the list. *)
Lemma collect_questions_spec futures acc p w :
  quest_inv ms cs w0 p w -> Forall (fun f => f < length p) futures ->
  exists p' w' r,
    collect_questions futures acc p w = ((p', r), w') /\
    quest_inv ms cs w0 p' w' /\ evolves p p' /\
    read_results p' futures acc = Some r.
Proof.
  revert acc p w. induction futures as [|f rest IH]; intros acc p w HI Hlt; simpl.
  - exists p, w, (Ok acc). split_and!; try done.
  - apply Forall_cons in Hlt as [Hf Hrest]. unfold await, st_bind.
    destruct (future_result_spec QuestPool (quest_inv ms cs w0)
                quest_inv_choice quest_inv_run f p w HI Hf)
      as (p1 & w1 & r1 & -> & HI1 & Hev1 & Hr1).
    apply (quest_inv_log _ _ (EvAwait QuestPool f)) in HI1; [|done].
    destruct r1 as [generated|e].
    + destruct (IH (acc ++ (generated_text <$> generated)) p1 _ HI1)
        as (p2 & w2 & r2 & -> & HI2 & Hev2 & Hr2).
      { destruct Hev1 as [-> _]. done. }
      exists p2, w2, r2. split_and!; try done.
      * by eapply evolves_trans.
      * destruct Hev2 as [_ Hev2]. by rewrite (Hev2 _ _ Hr1).
    + exists p1, (log (EvAwait QuestPool f) w1), (Raise e).
      split_and!; try done. simpl. by rewrite Hr1.
Qed.

Lemma all_done_answers (p : Pool (list GeneratedItem)) :
  Forall2 (slot_for ms) cs p -> pending_ids p = [] ->
  exists outs, p = Done <$> outs /\ Forall2 (answer_for ms) cs outs.
Proof.
  intros H. unfold pending_ids. generalize 0.
  induction H as [|c s cs' p' Hs _ IH]; intros b Hp.
  - by exists [].
  - destruct Hs as [->|[g ->]]; [done|]. simpl in Hp.
    destruct (IH _ Hp) as (outs & -> & Ho).
    exists (quest_answer ms c g :: outs). split; [done|].
    constructor; [by exists g|done].
Qed.
End QuestionPool.

Lemma read_results_done pre outs acc :
  read_results (Done <$> (pre ++ outs)) (seq (length pre) (length outs)) acc
  = Some (gather outs acc).
Proof.
  revert pre acc. induction outs as [|[g|e] outs IH]; intros pre acc; simpl; [done|..].
  - rewrite list_lookup_fmap, lookup_app_r, Nat.sub_diag by lia. simpl.
    specialize (IH (pre ++ [Ok g]) (acc ++ (generated_text <$> g))).
    rewrite <- app_assoc, length_app in IH. simpl in IH.
    by rewrite Nat.add_1_r in IH.
  - by rewrite list_lookup_fmap, lookup_app_r, Nat.sub_diag by lia.
Qed.

(** Whatever the scheduler does, the list [questions] is made of the
    per-chunk answers taken in chunk order. *)
Lemma question_list_spec ms text w :
  exists outs w',
    question_list ms text w = (gather outs [], w') /\
    Forall2 (answer_for ms) (text_chunks text) outs /\
    same_disk w w' /\
    extends_by quest_event
      (log (EvPrint (py "Generating questions using FLAN-T5...")) w) w'.
Proof.
  unfold question_list, bind, st_bind, print, with_executor, st_bind.
  set (w0 := log _ w). set (cs := text_chunks text).
  assert (quest_inv ms cs w0 [] w0) as HI0.
  { split; [by constructor|]. split; [apply same_disk_refl|apply extends_by_refl]. }
  destruct (submit_all_spec ms cs w0 cs [] w0 HI0 eq_refl)
    as (p1 & w1 & -> & HI1 & Hl1).
  cbn [length].
  destruct (collect_questions_spec ms cs w0 (seq 0 (length cs)) [] p1 w1 HI1)
    as (p2 & w2 & r & -> & HI2 & Hev2 & Hr).
  { apply Forall_forall. intros f Hf%elem_of_seq. lia. }
  destruct (shutdown_spec QuestPool (quest_inv ms cs w0)
              (quest_inv_choice ms cs w0) (quest_inv_run ms cs w0) p2 w2 HI2)
    as (p3 & w3 & -> & HI3 & Hev3 & Hdone).
  destruct HI3 as (Hs3 & Hd3 & He3).
  assert (length p3 = length cs) as Hl3.
  { destruct Hev3 as [-> _]. destruct Hev2 as [-> _]. done. }
  rewrite Hl3, firstn_all in Hs3.
  destruct (all_done_answers ms cs p3 Hs3 Hdone) as (outs & -> & Hans).
  pose proof (read_results_evolves _ _ _ _ _ Hev3 Hr) as Hr3.
  pose proof (read_results_done [] outs []) as Hg. simpl in Hg.
  rewrite (Forall2_length _ _ _ Hans) in Hr3.
  rewrite Hg in Hr3. injection Hr3 as <-.
  exists outs, (log (EvShutdown QuestPool) w3). split; [done|]. split; [done|]. split.
  - eapply same_disk_trans; [apply same_disk_log|].
    eapply same_disk_trans; [done|apply same_disk_log].
  - eapply extends_by_trans; [done|by apply extends_by_log].
Qed.

(** ** The three tasks of the orchestrator *)

Lemma transcribe_audio_run ms path w :
  transcribe_audio ms path w =
    (result_map text (whisper_model ms path (rng w)).1,
     set_rng (whisper_model ms path (rng w)).2
       (log (EvWhisper path) (log (EvPrint (py "Transcribing audio...")) w))).
Proof.
  unfold transcribe_audio, bind, st_bind, print. rewrite call_model_run. simpl.
  by destruct (whisper_model ms path (rng w)).1.
Qed.

Lemma summarize_text_run ms t w :
  summarize_text ms t w =
    (sum_answer ms t (rng w),
     set_rng (summarizer ms (text_chunks t, SUMMARY_KWARGS) (rng w)).2
       (log (EvSummarizer (text_chunks t) SUMMARY_KWARGS) (log (EvPrint SUMMARIZING) w))).
Proof.
  unfold summarize_text, sum_answer, bind, st_bind, print. rewrite call_model_run. simpl.
  by destruct (summarizer ms (text_chunks t, SUMMARY_KWARGS) (rng w)).1.
Qed.

Lemma generate_questions_spec ms t w :
  exists outs w',
    generate_questions ms t w = (result_map (join [LF]) (gather outs []), w') /\
    Forall2 (answer_for ms) (text_chunks t) outs /\
    same_disk w w' /\
    extends_by quest_event (log (EvPrint GENERATING) w) w'.
Proof.
  destruct (question_list_spec ms t w) as (outs & w' & Hq & Hans & Hd & He).
  exists outs, w'. unfold generate_questions, bind, st_bind. rewrite Hq.
  by destruct (gather outs []).
Qed.

Lemma quest_downstream ev : quest_event ev -> downstream_event ev.
Proof. unfold downstream_event. intros H. by apply orb_True; left. Qed.

Section OrchestratorPool.
Variable ms : Models.
Variable t : str.
Variable wb w0 : World.

Lemma orch_slot_mono task outcome mark tr tr' s :
  orch_slot task outcome mark tr s -> orch_slot task outcome mark (tr ++ tr') s.
Proof.
  intros [->|(r & -> & Hr & Hm)]; [by left|right].
  exists r. split; [done|]. split; [done|]. apply elem_of_app. by left.
Qed.

Lemma orch_slots_extend p w w' tr :
  trace w' = trace w ++ tr -> orch_slots ms t wb p w -> orch_slots ms t wb p w'.
Proof.
  intros Ht (trb & s1 & q & Hb & -> & H1 & H2).
  exists (trb ++ tr), s1, q. split; [by rewrite Ht, Hb, app_assoc|].
  split; [done|]. split; [by apply orch_slot_mono|].
  destruct H2 as [->|(s2 & -> & H2)]; [by left|right].
  exists s2. split; [done|]. by apply orch_slot_mono.
Qed.

(** The question task joins the pool. *)
Lemma orch_slots_submit p w :
  orch_slots ms t wb p w -> length p = 2 ->
  orch_slots ms t wb (p ++ [Pending (generate_questions ms t)])
    (log (EvSubmit OrchPool 2) w).
Proof.
  intros (trb & s1 & q & Hb & -> & H1 & H2) Hl.
  destruct q as [|? ?]; [|simpl in Hl; lia].
  exists (trb ++ [EvSubmit OrchPool 2]), s1, [Pending (generate_questions ms t)].
  split; [simpl; by rewrite Hb, app_assoc|]. split; [done|].
  split; [by apply orch_slot_mono|]. right. eexists. split; [done|]. by left.
Qed.

Lemma orch_inv_choice p w :
  orch_inv ms t wb w0 p w -> orch_inv ms t wb w0 p (next_choice w).2.
Proof.
  intros (Hs & Hd & He). split; [|split].
  - apply (orch_slots_extend p w _ []); [|done].
    by rewrite app_nil_r, trace_next_choice.
  - eapply same_disk_trans; [done|apply same_disk_next_choice].
  - eapply extends_by_trans; [done|]. apply extends_by_same_trace, trace_next_choice.
Qed.

Lemma orch_inv_run p w i task :
  orch_inv ms t wb w0 p w -> p !! i = Some (Pending task) ->
  orch_inv ms t wb w0
    (<[i := Done (task (log (EvTaskStart OrchPool i) w)).1]> p)
    (log (EvTaskDone OrchPool i) (task (log (EvTaskStart OrchPool i) w)).2).
Proof.
  intros ((trb & s1 & q & Hb & -> & H1 & H2) & Hd & He) Hi.
  destruct i as [|[|i]]; simpl in Hi; try done.
  - (* the summarization task completes *)
    injection Hi as ->. destruct H1 as [[= ->]|(r & [=] & _)].
    rewrite summarize_text_run. simpl.
    set (tr := [EvTaskStart OrchPool 1; EvPrint SUMMARIZING;
                EvSummarizer (text_chunks t) SUMMARY_KWARGS; EvTaskDone OrchPool 1]).
    split; [|split].
    + exists (trb ++ tr), (Done (sum_answer ms t (rng w))), q. split_and!.
      * simpl. rewrite Hb. by rewrite <- !app_assoc.
      * done.
      * right. eexists. split; [done|]. split; [by eexists|].
        apply elem_of_app. right. unfold tr. rewrite !elem_of_cons. auto.
      * destruct H2 as [->|(s2 & -> & H2)]; [by left|right].
        exists s2. split; [done|]. by apply orch_slot_mono.
    + eapply same_disk_trans; [done|]. by split.
    + eapply extends_by_trans; [done|]. exists tr.
      split; [|by repeat constructor]. simpl. by rewrite <- !app_assoc.
  - (* the question task completes *)
    destruct H2 as [->|(s2 & -> & H2)]; [by destruct i|].
    destruct i as [|i]; simpl in Hi; [|by destruct i].
    injection Hi as ->. destruct H2 as [[= ->]|(r & [=] & _)].
    destruct (generate_questions_spec ms t (log (EvTaskStart OrchPool 2) w))
      as (outs & w' & -> & Hans & Hd' & (tq & Htq & Hq)).
    simpl. split; [|split].
    + exists (trb ++ [EvTaskStart OrchPool 2; EvPrint GENERATING] ++ tq ++
              [EvTaskDone OrchPool 2]),
             s1, [Done (result_map (join [LF]) (gather outs []))]. split_and!.
      * simpl. rewrite Htq. simpl. rewrite Hb. by rewrite <- !app_assoc.
      * done.
      * by apply orch_slot_mono.
      * right. eexists. split; [done|]. right. eexists. split; [done|].
        split; [by exists outs|]. apply elem_of_app. right.
        simpl. rewrite !elem_of_cons. auto.
    + eapply same_disk_trans; [done|]. eapply same_disk_trans; [apply same_disk_log|].
      eapply same_disk_trans; [done|apply same_disk_log].
    + eapply extends_by_trans; [done|].
      eapply extends_by_trans; [by apply (extends_by_log _ (EvTaskStart OrchPool 2))|].
      eapply extends_by_trans; [by apply (extends_by_log _ (EvPrint GENERATING))|].
      eapply extends_by_trans;
        [eapply extends_by_mono; [apply quest_downstream|by exists tq]|].
      by apply extends_by_log.
Qed.

(** A new wait starts from the world the previous one ended in. *)
Lemma orch_inv_rebase p w :
  orch_slots ms t wb p w -> orch_inv ms t wb w p w.
Proof. intros Hs. split; [done|]. split; [apply same_disk_refl|apply extends_by_refl]. Qed.
End OrchestratorPool.

Lemma rng_next_choice w : rng (next_choice w).2 = rng w.
Proof. unfold next_choice. by destruct (oracle w). Qed.

Lemma shutdown_finished {A} pid (r : Result A) w :
  shutdown pid [Done r] w = (tt, log (EvShutdown pid) w).
Proof. reflexivity. Qed.

Lemma await_run {A B} pid f (p : Pool A) (k : Pool A -> A -> St (Pool A * Result B)) w p' r w' :
  future_result pid f p w = ((p', r), w') ->
  await pid f p k w =
    match r with Ok a => k p' a w' | Raise e => ((p', Raise e), w') end.
Proof. unfold await, st_bind. intros ->. by destruct r. Qed.

(** *** The transcription phase *)

Section Transcribing.
Variable ms : Models.
Variable path : str.
Variable w0 : World.

Lemma transcribing_inv_choice p w :
  transcribing_inv ms path w0 p w -> transcribing_inv ms path w0 p (next_choice w).2.
Proof.
  intros (Hd & H). split.
  - eapply same_disk_trans; [done|apply same_disk_next_choice].
  - pose proof (rng_next_choice w) as Hrng. pose proof (trace_next_choice w) as Htr.
    destruct H as [(-> & H1 & H2)|(-> & H2)]; [left|right]; split_and!; congruence.
Qed.

Lemma transcribing_inv_run p w i task :
  transcribing_inv ms path w0 p w -> p !! i = Some (Pending task) ->
  transcribing_inv ms path w0
    (<[i := Done (task (log (EvTaskStart OrchPool i) w)).1]> p)
    (log (EvTaskDone OrchPool i) (task (log (EvTaskStart OrchPool i) w)).2).
Proof.
  intros (Hd & [(-> & Hrng & Htr)|(-> & Htr)]) Hi.
  - destruct i as [|i]; simpl in Hi; [|done]. injection Hi as <-.
    rewrite transcribe_audio_run. cbn [fst snd rng log]. rewrite Hrng. split.
    + eapply same_disk_trans; [done|]. by split.
    + right. split; [done|]. cbn [trace log set_rng]. rewrite Htr.
      by rewrite <- !app_assoc.
  - by destruct i as [|[|i]].
Qed.

(** The only task of the pool has run when its result is handed over. *)
Lemma transcription_phase :
  exists wA,
    submit OrchPool (transcribe_audio ms path) [] w0 =
      (((submit OrchPool (transcribe_audio ms path) [] w0).1.1, 0),
       (submit OrchPool (transcribe_audio ms path) [] w0).2) /\
    future_result OrchPool 0 (submit OrchPool (transcribe_audio ms path) [] w0).1.1
      (submit OrchPool (transcribe_audio ms path) [] w0).2 =
      (([Done (result_map text (whisper_model ms path (rng w0)).1)],
        result_map text (whisper_model ms path (rng w0)).1), wA) /\
    same_disk w0 wA /\
    trace wA = trace w0 ++ transcription_events path.
Proof.
  assert (transcribing_inv ms path w0 ([] ++ [Pending (transcribe_audio ms path)])
            (log (EvSubmit OrchPool (length (@nil (Slot str)))) w0)) as HI0.
  { split; [apply same_disk_log|]. left. done. }
  destruct (submit_spec OrchPool (transcribing_inv ms path w0)
              transcribing_inv_choice transcribing_inv_run _ _ _ HI0)
    as (p1 & w1 & Hsub & HI1 & [Hl1 _]).
  rewrite Hsub. simpl fst. simpl snd.
  destruct (future_result_spec OrchPool (transcribing_inv ms path w0)
              transcribing_inv_choice transcribing_inv_run 0 p1 w1 HI1)
    as (p2 & w2 & r & -> & (Hd2 & H2) & Hev2 & Hr2).
  { rewrite Hl1. simpl. lia. }
  destruct H2 as [(-> & _)|(-> & Htr)]; [done|]. injection Hr2 as <-.
  eexists. split; [done|]. split; [done|]. split.
  - eapply same_disk_trans; [done|apply same_disk_log].
  - simpl. rewrite Htr. by rewrite <- app_assoc.
Qed.
End Transcribing.

(** *** Summarization and question generation *)

(** From the two submissions to the end of the [with] block. *)
Lemma downstream_block_spec ms t w :
  exists rs rq tr0 trA trB trC tr p w1 w',
    downstream_block ms t [Done (Ok t)] w = ((p, block_result t rs rq), w1) /\
    shutdown OrchPool p w1 = (tt, w') /\
    sum_outcome ms t rs /\ quest_outcome ms t rq /\
    Forall downstream_event tr0 /\ Forall downstream_event trA /\
    Forall downstream_event trB /\ Forall downstream_event trC /\
    same_disk w w' /\
    trace w' = trace w ++ tr /\
    tr = [EvSubmit OrchPool 1] ++ tr0 ++ [EvSubmit OrchPool 2] ++ trA ++
         [EvAwait OrchPool 1] ++
         match rs with
         | Ok _ => trB ++ [EvAwait OrchPool 2]
         | Raise _ => []
         end ++ trC ++ [EvShutdown OrchPool] /\
    EvSummarizer (text_chunks t) SUMMARY_KWARGS ∈ tr /\
    EvPrint GENERATING ∈ tr.
Proof.
  unfold downstream_block, st_bind.
  (* the summarization task is submitted *)
  set (wb := log (EvSubmit OrchPool 1) w).
  assert (orch_inv ms t wb wb ([Done (Ok t)] ++ [Pending (summarize_text ms t)])
            (log (EvSubmit OrchPool (length [Done (Ok t)])) w)) as HI0.
  { apply orch_inv_rebase. eexists [], _, []. rewrite app_nil_r.
    split; [done|]. split; [done|]. split; by left. }
  destruct (submit_spec OrchPool (orch_inv ms t wb wb)
              (orch_inv_choice ms t wb wb) (orch_inv_run ms t wb wb) _ _ _ HI0)
    as (pa & wa & -> & (Hslotsa & Hda & (tr0 & Ht0 & HF0)) & [Hla _]).
  cbn [length app] in Hla |- *.
  (* the question task is submitted *)
  set (ws := log (EvSubmit OrchPool 2) wa).
  assert (orch_inv ms t wb ws (pa ++ [Pending (generate_questions ms t)])
            (log (EvSubmit OrchPool (length pa)) wa)) as HIs.
  { rewrite Hla. apply orch_inv_rebase. by apply orch_slots_submit. }
  destruct (submit_spec OrchPool (orch_inv ms t wb ws)
              (orch_inv_choice ms t wb ws) (orch_inv_run ms t wb ws) _ _ _ HIs)
    as (p0 & w0 & -> & HI0' & [Hl0 _]).
  rewrite length_app, Hla in Hl0. simpl in Hl0. rewrite Hla.
  (* awaiting the summary *)
  destruct (future_result_spec OrchPool (orch_inv ms t wb ws)
              (orch_inv_choice ms t wb ws) (orch_inv_run ms t wb ws) 1 p0 w0 HI0')
    as (p1 & w1 & rs & Hfr1 & HI1 & Hev1 & Hr1); [lia|].
  rewrite (await_run _ _ _ _ _ _ _ _ Hfr1).
  destruct HI1 as (Hslots1 & Hd1 & (trA & HtA & HFA)).
  set (wc := log (EvAwait OrchPool 1) w1).
  assert (orch_inv ms t wb wc p1 wc) as HIc.
  { apply orch_inv_rebase. by apply (orch_slots_extend _ _ _ p1 w1 wc [EvAwait OrchPool 1]). }
  assert (length p1 = 3) as Hl1 by (destruct Hev1 as [-> _]; done).
  assert (sum_outcome ms t rs) as Hrs.
  { destruct Hslots1 as (? & s1 & q & _ & -> & Hs1 & _). injection Hr1 as ->.
    by destruct Hs1 as [[=]|(? & [= <-] & ? & _)]. }
  assert (trace w1 = trace w ++ [EvSubmit OrchPool 1] ++ tr0 ++ [EvSubmit OrchPool 2] ++ trA)
    as Htrace1.
  { rewrite HtA. unfold ws. simpl. rewrite Ht0. unfold wb. simpl.
    by rewrite <- !app_assoc. }
  assert (forall p3 w3 trX,
            orch_slots ms t wb p3 w3 -> pending_ids p3 = [] -> length p3 = 3 ->
            trace w3 ++ [EvShutdown OrchPool] = trace w ++ [EvSubmit OrchPool 1] ++ trX ->
            (exists rq, p3 !! 2 = Some (Done rq) /\ quest_outcome ms t rq) /\
            EvSummarizer (text_chunks t) SUMMARY_KWARGS ∈ [EvSubmit OrchPool 1] ++ trX /\
            EvPrint GENERATING ∈ [EvSubmit OrchPool 1] ++ trX) as Hend.
  { intros p3 w3 trX (trb & s1 & q & Hb & -> & Hs1 & Hs2) Hdone Hl3 Heq.
    destruct Hs2 as [->|(s2 & -> & Hs2)]; [simpl in Hl3; lia|].
    destruct Hs1 as [->|(r1 & -> & _ & Hm1)]; [discriminate Hdone|].
    destruct Hs2 as [->|(r2 & -> & Hq2 & Hm2)]; [discriminate Hdone|].
    rewrite Hb in Heq. unfold wb in Heq. simpl in Heq.
    rewrite <- !app_assoc in Heq. apply app_inv_head in Heq. simpl in Heq.
    injection Heq as Heq. split; [by exists r2|].
    rewrite <- Heq. split; rewrite !elem_of_app; auto. }
  destruct rs as [summary|e].
  - (* awaiting the questions *)
    destruct (future_result_spec OrchPool (orch_inv ms t wb wc)
                (orch_inv_choice ms t wb wc) (orch_inv_run ms t wb wc) 2 _ wc HIc)
      as (p2 & w2 & rq & Hfr2 & HI2 & Hev2 & Hr2); [lia|].
    rewrite (await_run _ _ _ _ _ _ _ _ Hfr2).
    destruct HI2 as (Hslots2 & Hd2 & (trB & HtB & HFB)).
    set (wd := log (EvAwait OrchPool 2) w2).
    assert (orch_inv ms t wb wd p2 wd) as HId.
    { apply orch_inv_rebase. by apply (orch_slots_extend _ _ _ p2 w2 wd [EvAwait OrchPool 2]). }
    destruct (shutdown_spec OrchPool (orch_inv ms t wb wd)
                (orch_inv_choice ms t wb wd) (orch_inv_run ms t wb wd) _ wd HId)
      as (p3 & w3 & Hsh & HI3 & Hev3 & Hdone).
    destruct HI3 as (Hslots3 & Hd3 & (trC & HtC & HFC)).
    assert (length p3 = 3) as Hl3.
    { destruct Hev3 as [-> _]. destruct Hev2 as [-> _]. done. }
    assert (trace w3 ++ [EvShutdown OrchPool] =
            trace w ++ [EvSubmit OrchPool 1] ++
              (tr0 ++ [EvSubmit OrchPool 2] ++ trA ++ [EvAwait OrchPool 1] ++
               (trB ++ [EvAwait OrchPool 2]) ++ trC ++ [EvShutdown OrchPool])) as Htrace.
    { rewrite HtC. simpl. rewrite HtB. simpl. rewrite Htrace1.
      by rewrite <- !app_assoc. }
    destruct (Hend p3 w3 _ Hslots3 Hdone Hl3 Htrace) as ((rq' & Hrq' & Hq) & Hm1 & Hm2).
    assert (rq' = rq) as ->.
    { destruct Hev3 as [_ Hev3]. rewrite (Hev3 _ _ Hr2) in Hrq'. by injection Hrq'. }
    exists (Ok summary), rq, tr0, trA, trB, trC.
    eexists _, _, _, _. split.
    { destruct rq; reflexivity. }
    split; [exact Hsh|]. split_and!; try done.
    eapply same_disk_trans; [|apply same_disk_log].
    eapply same_disk_trans; [|exact Hd3].
    eapply same_disk_trans; [|apply same_disk_log].
    eapply same_disk_trans; [|exact Hd2].
    eapply same_disk_trans; [|apply same_disk_log].
    eapply same_disk_trans; [|exact Hd1].
    eapply same_disk_trans; [|apply same_disk_log].
    eapply same_disk_trans; [|exact Hda]. by split.
  - (* the summary raised: straight to the end of the block *)
    destruct (shutdown_spec OrchPool (orch_inv ms t wb wc)
                (orch_inv_choice ms t wb wc) (orch_inv_run ms t wb wc) _ wc HIc)
      as (p3 & w3 & Hsh & HI3 & Hev3 & Hdone).
    destruct HI3 as (Hslots3 & Hd3 & (trC & HtC & HFC)).
    assert (length p3 = 3) as Hl3 by (destruct Hev3 as [-> _]; done).
    assert (trace w3 ++ [EvShutdown OrchPool] =
            trace w ++ [EvSubmit OrchPool 1] ++
              (tr0 ++ [EvSubmit OrchPool 2] ++ trA ++ [EvAwait OrchPool 1] ++
               [] ++ trC ++ [EvShutdown OrchPool])) as Htrace.
    { rewrite HtC. simpl. rewrite Htrace1. by rewrite <- !app_assoc. }
    destruct (Hend p3 w3 _ Hslots3 Hdone Hl3 Htrace) as ((rq & Hrq & Hq) & Hm1 & Hm2).
    exists (Raise e), rq, tr0, trA, [], trC.
    eexists _, _, _, _. split; [reflexivity|].
    split; [exact Hsh|]. split_and!; try done.
    eapply same_disk_trans; [|apply same_disk_log].
    eapply same_disk_trans; [|exact Hd3].
    eapply same_disk_trans; [|apply same_disk_log].
    eapply same_disk_trans; [|exact Hd1].
    eapply same_disk_trans; [|apply same_disk_log].
    eapply same_disk_trans; [|exact Hda]. by split.
Qed.

(** The whole [with] block of the orchestrator, whatever the scheduler and
    the models do. *)
Lemma executor_block_spec ms path w :
  exists r w' tr,
    executor_block ms path w = (r, w') /\
    same_disk w w' /\
    trace w' = trace w ++ transcription_events path ++ tr /\
    match (whisper_model ms path (rng w)).1 with
    | Raise e => r = Raise e /\ tr = [EvShutdown OrchPool]
    | Ok res =>
        exists rs rq tr0 trA trB trC,
          sum_outcome ms (text res) rs /\ quest_outcome ms (text res) rq /\
          Forall downstream_event tr0 /\ Forall downstream_event trA /\
          Forall downstream_event trB /\ Forall downstream_event trC /\
          r = block_result (text res) rs rq /\
          tr = [EvSubmit OrchPool 1] ++ tr0 ++ [EvSubmit OrchPool 2] ++ trA ++
               [EvAwait OrchPool 1] ++
               match rs with
               | Ok _ => trB ++ [EvAwait OrchPool 2]
               | Raise _ => []
               end ++ trC ++ [EvShutdown OrchPool] /\
          EvSummarizer (text_chunks (text res)) SUMMARY_KWARGS ∈ tr /\
          EvPrint GENERATING ∈ tr
    end.
Proof.
  unfold executor_block, with_executor, st_bind.
  destruct (transcription_phase ms path w) as (wA & Hsub & Hfr & HdA & HtA).
  rewrite Hsub. rewrite (await_run _ _ _ _ _ _ _ _ Hfr).
  destruct (whisper_model ms path (rng w)).1 as [res|e]; cbn [result_map].
  - destruct (downstream_block_spec ms (text res) wA)
      as (rs & rq & tr0 & trA & trB & trC & tr & p & w1 & w' & -> & -> & Hs & Hq
          & H0 & HA & HB & HC & Hd & Ht & Hshape & Hm1 & Hm2).
    exists (block_result (text res) rs rq), w', tr.
    split; [reflexivity|]. split; [by eapply same_disk_trans|].
    split.
    + rewrite Ht, HtA. by rewrite <- !app_assoc.
    + exists rs, rq, tr0, trA, trB, trC. by split_and!.
  - unfold st_ret. rewrite shutdown_finished.
    eexists _, _, _. split; [reflexivity|]. split.
    { eapply same_disk_trans; [exact HdA|apply same_disk_log]. }
    split; [|done]. simpl. rewrite HtA. by rewrite <- !app_assoc.
Qed.

(** ** Writing the report *)

Lemma utf8_encode_from_shift pos pos' s :
  pos <= pos' ->
  utf8_encode_from pos' s =
    match utf8_encode_from pos s with
    | Ok data => Ok data
    | Raise (UnicodeEncodeError n) => Raise (UnicodeEncodeError (n + pos' - pos))
    | Raise e => Raise e
    end.
Proof.
  revert pos pos'. induction s as [|c s IH]; intros pos pos' Hge; simpl; [done|].
  destruct (utf8_encode_cp c) as [bs|].
  - rewrite (IH (S pos) (S pos')) by lia.
    destruct (utf8_encode_from (S pos) s) as [tail|[]]; try done.
    do 2 f_equal. lia.
  - do 2 f_equal. lia.
Qed.

Lemma utf8_encode_from_ok pos s data :
  utf8_encode_from pos s = Ok data <-> utf8_encode s = Ok data.
Proof.
  unfold utf8_encode. rewrite (utf8_encode_from_shift 0 pos) by lia.
  destruct (utf8_encode_from 0 s) as [d|[]]; by split.
Qed.

Lemma utf8_encode_app a b data :
  utf8_encode (a ++ b) = Ok data <->
  exists da db, utf8_encode a = Ok da /\ utf8_encode b = Ok db /\ data = da ++ db.
Proof.
  revert data. induction a as [|c a IH]; intros data.
  - simpl. split.
    + intros H. by exists [], data.
    + by intros (da & db & [= <-] & Hb & ->).
  - unfold utf8_encode. simpl.
    destruct (utf8_encode_cp c) as [bs|]; [|split; [done|by intros (? & ? & ? & _)]].
    destruct (utf8_encode_from 1 (a ++ b)) as [tail|e] eqn:Hab.
    + apply utf8_encode_from_ok, IH in Hab as (da & db & Ha & Hb & ->).
      apply (utf8_encode_from_ok 1) in Ha. rewrite Ha. split.
      * intros [= <-]. exists (bs ++ da), db. by rewrite <- app_assoc.
      * intros (da' & db' & [= <-] & Hb' & ->).
        unfold utf8_encode in Hb. rewrite Hb in Hb'.
        injection Hb' as <-. by rewrite <- app_assoc.
    + split; [done|]. intros (da' & db' & Ha' & Hb' & ->).
      destruct (utf8_encode_from 1 a) as [da|] eqn:Ha; [|done].
      assert (utf8_encode_from 1 (a ++ b) = Ok (da ++ db')) as Hc.
      { apply utf8_encode_from_ok, IH. exists da, db'.
        by rewrite utf8_encode_from_ok in Ha. }
      congruence.
Qed.

(** The report is the three headers and the three values, encoded one
    after the other. *)
Lemma utf8_encode_combined t s q data :
  utf8_encode (combined_text t s q) = Ok data <->
  exists dt ds dq,
    utf8_encode t = Ok dt /\ utf8_encode s = Ok ds /\ utf8_encode q = Ok dq /\
    data = report_bytes dt ds dq.
Proof.
  unfold combined_text, report_bytes. split.
  - intros (h1 & r1 & Hh1 & (dt & r2 & Ht & (b1 & r3 & Hb1 & (h2 & r4 & Hh2 &
      (ds & r5 & Hs & (b2 & r6 & Hb2 & (h3 & dq & Hh3 & Hq & ->)%utf8_encode_app
      & ->)%utf8_encode_app & ->)%utf8_encode_app & ->)%utf8_encode_app
      & ->)%utf8_encode_app & ->)%utf8_encode_app & ->)%utf8_encode_app.
    exists dt, ds, dq. split_and!; try done.
    vm_compute in Hh1, Hh2, Hh3, Hb1, Hb2.
    injection Hh1 as <-. injection Hh2 as <-. injection Hh3 as <-.
    injection Hb1 as <-. injection Hb2 as <-. reflexivity.
  - intros (dt & ds & dq & Ht & Hs & Hq & ->).
    repeat (apply utf8_encode_app; eexists _, _; split_and!; [try done..|reflexivity]).
    all: done.
Qed.

Lemma write_text_run path s w :
  write_text path s w =
    match disk_fault w with
    | Some (OpenFails e) => (Raise e, w)
    | fault =>
        let w1 := log (EvOpen path) (set_file path [] w) in
        match utf8_encode s with
        | Raise e => (Raise e, log (EvClose path) w1)
        | Ok data =>
            match fault with
            | Some (WriteFails e n) =>
                (Raise e, log (EvClose path) (set_file path (take n data) w1))
            | _ =>
                (Ok tt, log (EvClose path) (log (EvWrite path data) (set_file path data w1)))
            end
        end
    end.
Proof.
  unfold write_text, bind, st_bind, open_w, file_write, emit, st_ret, raise.
  destruct (disk_fault w) as [[e|e n]|] eqn:Hf; simpl; try done.
  - rewrite Hf. by destruct (utf8_encode s).
  - rewrite Hf. by destruct (utf8_encode s).
Qed.

(** A write that returns has put exactly the encoded text in the file. *)
Lemma write_text_ok path s w w' :
  write_text path s w = (Ok tt, w') ->
  exists data,
    utf8_encode s = Ok data /\
    files w' = <[path := data]> (files w) /\
    trace w' = trace w ++ write_events path data /\
    disk_fault w = None /\ disk_fault w' = None.
Proof.
  rewrite write_text_run.
  destruct (disk_fault w) as [[e|e n]|] eqn:Hf; try done; simpl;
    destruct (utf8_encode s) as [data|e']; try done.
  intros [= <-]. exists data. simpl. rewrite insert_insert_eq.
  split; [done|]. split; [done|]. by rewrite <- !app_assoc.
Qed.

(** On a healthy disk, an encodable text is written. *)
Lemma write_text_healthy path s w data :
  disk_fault w = None -> utf8_encode s = Ok data ->
  exists w', write_text path s w = (Ok tt, w') /\
             files w' = <[path := data]> (files w) /\
             trace w' = trace w ++ write_events path data.
Proof.
  intros Hf He. rewrite write_text_run, Hf, He. simpl. eexists. split; [done|].
  simpl. rewrite insert_insert_eq. split; [done|]. by rewrite <- !app_assoc.
Qed.

(** A write that raises hands over the exception of the step that failed. *)
Lemma write_text_raise path s w e w' :
  write_text path s w = (Raise e, w') ->
  (disk_fault w = Some (OpenFails e) /\ w' = w) \/
  utf8_encode s = Raise e \/
  (exists n, disk_fault w = Some (WriteFails e n)).
Proof.
  rewrite write_text_run.
  destruct (disk_fault w) as [[e0|e0 n]|]; simpl.
  - intros [= <- <-]. by left.
  - destruct (utf8_encode s); intros [= <- <-]; [right; right; eauto|by right; left].
  - destruct (utf8_encode s); intros [= <- <-]. by right; left.
Qed.

(** ** [process_audio] *)

Lemma process_audio_run ms path w :
  process_audio ms path w =
    match (executor_block ms path w).1 with
    | Raise e => (Raise e, (executor_block ms path w).2)
    | Ok (t, s, q) =>
        (result_map (fun _ => (t, s, q, FILE_PATH))
           (write_text FILE_PATH (combined_text t s q) (executor_block ms path w).2).1,
         (write_text FILE_PATH (combined_text t s q) (executor_block ms path w).2).2)
    end.
Proof.
  change (process_audio ms path) with
    (run '(transcript, summary, questions) <- executor_block ms path;
     run _ <- write_text FILE_PATH (combined_text transcript summary questions);
     ret (transcript, summary, questions, FILE_PATH)).
  unfold bind, st_bind. destruct (executor_block ms path w) as [[[[t s] q]|e] w1]; [|done].
  simpl. by destruct (write_text _ _ w1) as [[[]|e] w2].
Qed.

(** ** Properties of the chunker (lines 21 and 27) *)

Lemma text_chunks_lookup (s : str) (i : nat) :
  i < length (text_chunks s) ->
  text_chunks s !! i = Some (slice s (i * CHUNK) (i * CHUNK + CHUNK)).
Proof.
  unfold text_chunks. rewrite chunks_of_length by (unfold CHUNK; lia). intros Hi.
  unfold chunks_of, range. rewrite list_lookup_fmap, list_lookup_fmap, Nat.sub_0_r.
  by rewrite lookup_seq_lt.
Qed.

(** C1. For every string [s], the chunks [s[0:1024], s[1024:2048], ...]
    concatenated in order give back [s]; every chunk except possibly the
    last has length exactly 1024; the number of chunks is
    [ceil(len(s) / 1024)]; and the empty string has no chunk. *)
Theorem chunking_covers_exactly (s : str) :
  concat (text_chunks s) = s /\
  (forall i, i < length (text_chunks s) ->
     text_chunks s !! i = Some (slice s (i * 1024) (i * 1024 + 1024))) /\
  (forall i c, text_chunks s !! i = Some c ->
     S i < length (text_chunks s) -> length c = 1024) /\
  length (text_chunks s) = (length s + 1023) / 1024 /\
  length s <= length (text_chunks s) * 1024 < length s + 1024 /\
  text_chunks [] = [].
Proof.
  assert (0 < CHUNK) as Hk by (unfold CHUNK; lia).
  split_and!.
  - apply concat_chunks_of, Hk.
  - apply text_chunks_lookup.
  - intros i c. apply chunks_of_full, Hk.
  - unfold text_chunks. by rewrite chunks_of_length.
  - unfold text_chunks. rewrite chunks_of_length by done. apply (ceil_spec CHUNK Hk).
  - unfold text_chunks. rewrite chunks_of_length by done. apply (ceil_spec CHUNK Hk).
  - apply chunks_of_nil, Hk.
Qed.

Lemma chunking_covers_exactly_witness :
  concat (text_chunks (py "hello world")) = py "hello world".
Proof. apply (chunking_covers_exactly (py "hello world")). Defined.

(** ** Properties of the question-generation adapter (lines 25 to 45) *)

Lemma gather_ok (groups : list (list GeneratedItem)) acc :
  gather (Ok <$> groups) acc = Ok (acc ++ flatten_groups groups).
Proof.
  unfold flatten_groups. revert acc. induction groups as [|g groups IH]; intros acc; simpl.
  - by rewrite app_nil_r.
  - by rewrite IH, app_assoc.
Qed.

Lemma gather_ok_inv outs acc qs :
  gather outs acc = Ok qs -> exists groups, outs = Ok <$> groups.
Proof.
  revert acc. induction outs as [|[g|e] outs IH]; intros acc; simpl; [by exists []| |done].
  intros (groups & ->)%IH. by exists (g :: groups).
Qed.

(** An exception of the question block is the one of the first chunk, in
    chunk order, whose call raised. *)
Lemma gather_raise_inv outs acc e :
  gather outs acc = Raise e ->
  exists i, outs !! i = Some (Raise e) /\
            forall j, j < i -> exists g, outs !! j = Some (Ok g).
Proof.
  revert acc. induction outs as [|[g|e'] outs IH]; intros acc; simpl; [done|..].
  - intros (i & Hi & Hlt)%IH. exists (S i). split; [done|].
    intros [|j] Hj; simpl; [eauto|apply Hlt; lia].
  - intros [= ->]. exists 0. split; [done|]. intros j Hj. lia.
Qed.

Lemma answers_of_stub sb text outs :
  Forall2 (answer_for (stub_models sb)) (text_chunks text) outs ->
  outs = stub_answers sb text.
Proof.
  unfold stub_answers. induction 1 as [|c r cs outs [g ->] _ IH]; [done|].
  simpl. by rewrite IH.
Qed.

(** On deterministic stubs the question block does not depend on the world:
    not on the scheduler, not on the sampling state. *)
Lemma generate_questions_stub sb text w :
  (generate_questions (stub_models sb) text w).1 = stub_questions sb text.
Proof.
  destruct (generate_questions_spec (stub_models sb) text w)
    as (outs & w' & -> & Hans & _).
  by rewrite (answers_of_stub _ _ _ Hans).
Qed.

Lemma question_list_generate ms text w :
  (generate_questions ms text w).1 = result_map (join [LF]) (question_list ms text w).1.
Proof.
  unfold generate_questions, bind, st_bind.
  by destruct (question_list ms text w) as [[qs|e] w'].
Qed.

(** C3. For every transcript and every schedule of the worker pool, the
    question block is made of the per-chunk candidate groups in chunk
    (submission) order: group [i] is what the model answered for chunk [i].
    When every call answers 3 candidates, the number of question strings is
    [num_chunks * 3].  With deterministic stubs two runs give the same
    block, whatever their schedules. *)
Theorem questions_grouped_by_chunk (ms : Models) (text : str) (w : World) :
  (exists outs,
     Forall2 (answer_for ms) (text_chunks text) outs /\
     (question_list ms text w).1 = gather outs [] /\
     (generate_questions ms text w).1 = result_map (join [LF]) (gather outs [])) /\
  (forall qs, (question_list ms text w).1 = Ok qs ->
     exists groups,
       Forall2 (fun c group => exists g, quest_answer ms c g = Ok group)
               (text_chunks text) groups /\
       qs = flatten_groups groups) /\
  ((forall c g, c ∈ text_chunks text ->
      exists items, quest_answer ms c g = Ok items /\ length items = 3) ->
   exists qs, (question_list ms text w).1 = Ok qs /\
              length qs = length (text_chunks text) * 3 /\
              (generate_questions ms text w).1 = Ok (join [LF] qs)) /\
  (forall sb w1 w2,
     (generate_questions (stub_models sb) text w1).1 =
     (generate_questions (stub_models sb) text w2).1).
Proof.
  destruct (question_list_spec ms text w) as (outs & w' & Hq & Hans & _).
  assert (forall qs, gather outs [] = Ok qs ->
            exists groups,
              Forall2 (fun c group => exists g, quest_answer ms c g = Ok group)
                      (text_chunks text) groups /\
              qs = flatten_groups groups) as Hgroups.
  { intros qs Hqs. destruct (gather_ok_inv _ _ _ Hqs) as (groups & ->).
    exists groups. rewrite gather_ok in Hqs. injection Hqs as <-. split; [|done].
    rewrite Forall2_fmap_r in Hans. eapply Forall2_impl; [exact Hans|].
    intros c group [g Hg]. by exists g. }
  split_and!.
  - exists outs. rewrite question_list_generate, Hq. done.
  - rewrite Hq. exact Hgroups.
  - intros H3. rewrite question_list_generate, Hq. simpl.
    assert (exists groups, outs = Ok <$> groups /\ Forall (fun g => length g = 3) groups)
      as (groups & -> & Hlen).
    { clear Hq Hgroups. induction Hans as [|c r cs outs [g ->] _ IH]; [by exists []|].
      destruct (H3 c g) as (items & Hi & Hl); [by left|].
      destruct IH as (groups & -> & Hall).
      { intros c' g' Hin. apply H3. by right. }
      exists (items :: groups). rewrite Hi. split; [done|by constructor]. }
    rewrite gather_ok. simpl. eexists. split; [done|]. split; [|done].
    rewrite (Forall2_length _ _ _ Hans), length_fmap.
    clear -Hlen. unfold flatten_groups. induction Hlen as [|g groups Hg _ IH]; [done|].
    rewrite fmap_cons, concat_cons, length_app, length_fmap, IH, Hg. simpl. lia.
  - intros sb w1 w2. by rewrite !generate_questions_stub.
Qed.

Lemma questions_grouped_by_chunk_witness :
  exists qs,
    (question_list (stub_models (hello_stubs (py "a.mp3"))) (py "hello world")
       fresh_world).1 = Ok qs /\
    length qs = length (text_chunks (py "hello world")) * 3 /\
    (generate_questions (stub_models (hello_stubs (py "a.mp3"))) (py "hello world")
       fresh_world).1 = Ok (join [LF] qs).
Proof.
  apply (questions_grouped_by_chunk
           (stub_models (hello_stubs (py "a.mp3"))) (py "hello world") fresh_world).
  intros c g _. eexists. split; reflexivity.
Defined.

Lemma lookup_all_seq {A} (d : A) (l : list A) :
  (fun i => default d (l !! i)) <$> seq 0 (length l) = l.
Proof.
  apply list_eq. intros i. rewrite list_lookup_fmap.
  destruct (decide (i < length l)) as [Hlt|Hge].
  - rewrite lookup_seq_lt by done. simpl.
    destruct (lookup_lt_is_Some_2 l i Hlt) as [x Hx]. by rewrite Hx.
  - rewrite lookup_seq_ge, lookup_ge_None_2 by lia. done.
Qed.

(** C9, as stated, fails: with two chunks and a scheduler that lets the
    second task complete first, the tasks complete in the order 1, 0, yet the
    block lists the candidates of chunk 0 before those of chunk 1. *)
Lemma completion_order_not_followed :
  let outcome := generate_questions (stub_models echo_stubs) two_chunk_text late_first_world in
  completion_order (new_events late_first_world outcome.2) = [1; 0] /\
  outcome.1 = Ok (py "a1" ++ [LF] ++ py "a2" ++ [LF] ++ py "a3" ++ [LF] ++
              py "b1" ++ [LF] ++ py "b2" ++ [LF] ++ py "b3") /\
  outcome.1 <> questions_in_order echo_stubs two_chunk_text
             (completion_order (new_events late_first_world outcome.2)).
Proof. vm_compute. split; [done|]. split; [done|]. discriminate. Qed.

(** C9, amended. The question block follows the submission order of the
    per-chunk tasks, that is the chunk order, for every schedule of the
    worker pool: the order in which the tasks complete has no influence.
    With models that sample, the block is still the per-chunk answers taken
    in chunk order. *)
Theorem questions_follow_submission_order (sb : Stubs) (text : str) (w : World) :
  (generate_questions (stub_models sb) text w).1 =
    questions_in_order sb text (seq 0 (length (text_chunks text))) /\
  (forall ms : Models,
     exists outs,
       Forall2 (answer_for ms) (text_chunks text) outs /\
       (generate_questions ms text w).1 = result_map (join [LF]) (gather outs [])).
Proof.
  split.
  - rewrite generate_questions_stub. unfold questions_in_order, stub_questions.
    replace (length (text_chunks text)) with (length (stub_answers sb text))
      by (unfold stub_answers; by rewrite length_fmap).
    by rewrite lookup_all_seq.
  - intros ms. destruct (generate_questions_spec ms text w) as (outs & w' & -> & Hans & _).
    by exists outs.
Qed.

(** ** Properties of the summarization adapter (lines 19 to 23) *)

Lemma join_length (sep : str) (l : list str) :
  length (join sep l) = total_length l + (length l - 1) * length sep.
Proof.
  unfold total_length. induction l as [|x [|y l] IH]; simpl in *; [lia..|].
  rewrite !length_app, IH. lia.
Qed.

Lemma summarize_text_answer ms text w :
  (summarize_text ms text w).1 =
    result_map (fun sums => join (py " ") (summary_text <$> sums))
      (summarizer ms (text_chunks text, SUMMARY_KWARGS) (rng w)).1.
Proof. by rewrite summarize_text_run. Qed.

(** C4. When the summarizer answers the single summary of a transcript
    that fits in one chunk, [summarize_text] returns that summary string (a
    non-empty transcript of at most 1024 characters is its own single
    chunk).  In general the result is the per-chunk summary strings joined
    in chunk order, with exactly [num_chunks - 1] single-space separators
    between them. *)
Theorem summary_joined_with_single_spaces (ms : Models) (text : str) (w : World) :
  (length text <= 1024 ->
   forall s, (summarizer ms (text_chunks text, SUMMARY_KWARGS) (rng w)).1 = Ok [s] ->
             (summarize_text ms text w).1 = Ok (summary_text s)) /\
  (0 < length text <= 1024 -> text_chunks text = [text]) /\
  (forall sums,
     (summarizer ms (text_chunks text, SUMMARY_KWARGS) (rng w)).1 = Ok sums ->
     length sums = length (text_chunks text) ->
     (summarize_text ms text w).1 = Ok (join (py " ") (summary_text <$> sums)) /\
     length (join (py " ") (summary_text <$> sums)) =
       total_length (summary_text <$> sums) + (length (text_chunks text) - 1)).
Proof.
  split_and!.
  - intros _ s Hs. by rewrite summarize_text_answer, Hs.
  - intros Hlen. apply chunks_of_single; [unfold CHUNK; lia|done].
  - intros sums Hs Hlen. rewrite summarize_text_answer, Hs. split; [done|].
    rewrite join_length, length_fmap, Hlen. simpl. lia.
Qed.

Lemma summary_joined_with_single_spaces_witness :
  (summarize_text (stub_models (hello_stubs (py "a.mp3"))) (py "hello world")
     fresh_world).1 = Ok (py "SUM").
Proof.
  refine (proj1 (summary_joined_with_single_spaces
                   (stub_models (hello_stubs (py "a.mp3"))) (py "hello world") fresh_world)
                _ {| summary_text := py "SUM" |} _).
  - simpl. lia.
  - reflexivity.
Defined.

(** ** The orchestrator on deterministic stubs *)

Lemma sum_outcome_stub sb t rs :
  sum_outcome (stub_models sb) t rs -> rs = stub_summary sb t.
Proof. by intros [g ->]. Qed.

Lemma quest_outcome_stub sb t rq :
  quest_outcome (stub_models sb) t rq -> rq = stub_questions sb t.
Proof. intros (outs & Hans & ->). by rewrite (answers_of_stub _ _ _ Hans). Qed.

Lemma executor_block_stub sb path w :
  exists wb, executor_block (stub_models sb) path w = (stub_block sb path, wb) /\
             same_disk w wb.
Proof.
  destruct (executor_block_spec (stub_models sb) path w) as (r & wb & tr & -> & Hd & _ & H).
  exists wb. split; [|done]. f_equal. unfold stub_block. simpl in H.
  destruct (stub_whisper sb path) as [res|e].
  - destruct H as (rs & rq & _ & _ & _ & _ & Hs%sum_outcome_stub & Hq%quest_outcome_stub
                   & _ & _ & _ & _ & -> & _).
    by subst.
  - by destruct H as [-> _].
Qed.

Lemma write_text_same_result path s w w' :
  disk_fault w = disk_fault w' -> (write_text path s w).1 = (write_text path s w').1.
Proof.
  intros Hf. rewrite !write_text_run, <- Hf.
  destruct (disk_fault w) as [[e|e n]|]; simpl; by destruct (utf8_encode s).
Qed.

(** What [process_audio] returns or raises on stubs is decided by the
    stubs, the audio path and the health of the disk. *)
Lemma process_audio_stub_result sb path w w' :
  disk_fault w = disk_fault w' ->
  (process_audio (stub_models sb) path w).1 = (process_audio (stub_models sb) path w').1.
Proof.
  intros Hf. rewrite !process_audio_run.
  destruct (executor_block_stub sb path w) as (wb & -> & [_ Hd]).
  destruct (executor_block_stub sb path w') as (wb' & -> & [_ Hd']).
  simpl. destruct (stub_block sb path) as [[[t s] q]|e]; [|done].
  simpl. f_equal. apply write_text_same_result. congruence.
Qed.

(** When it returns, the report is in the file. *)
Lemma process_audio_ok ms path w t s q fp w' :
  process_audio ms path w = (Ok (t, s, q, fp), w') ->
  fp = FILE_PATH /\
  exists wb data,
    executor_block ms path w = (Ok (t, s, q), wb) /\
    utf8_encode (combined_text t s q) = Ok data /\
    files w' = <[FILE_PATH := data]> (files w) /\
    trace w' = trace wb ++ write_events FILE_PATH data /\
    disk_fault w = None /\ disk_fault w' = None.
Proof.
  rewrite process_audio_run.
  destruct (executor_block_spec ms path w) as (rb & wb & tr & Hb & [Hd Hd'] & _).
  rewrite Hb. simpl. destruct rb as [[[t' s'] q']|e]; [|done].
  destruct (write_text FILE_PATH (combined_text t' s' q') wb) as [[[]|e] w2] eqn:Hw; [|done].
  simpl. intros [= -> -> -> <- <-]. split; [done|].
  destruct (write_text_ok _ _ _ _ Hw) as (data & He & Hf & Ht & Hn & Hn').
  exists wb, data. rewrite Hf, Hd. split_and!; try done. congruence.
Qed.

(** On a healthy disk, an encodable report of a block that returned is
    written and the four values are returned. *)
Lemma process_audio_healthy ms path w t s q wb data :
  executor_block ms path w = (Ok (t, s, q), wb) ->
  disk_fault w = None ->
  utf8_encode (combined_text t s q) = Ok data ->
  exists w', process_audio ms path w = (Ok (t, s, q, FILE_PATH), w') /\
             files w' = <[FILE_PATH := data]> (files w) /\
             trace w' = trace wb ++ write_events FILE_PATH data.
Proof.
  intros Hb Hf He. rewrite process_audio_run, Hb. simpl.
  destruct (executor_block_spec ms path w) as (rb & wb' & tr & Hb' & [Hd Hd'] & _).
  rewrite Hb in Hb'. injection Hb' as <- <-.
  destruct (write_text_healthy FILE_PATH (combined_text t s q) wb data)
    as (w' & Hw & Hfiles & Ht); [congruence|done|].
  exists w'. rewrite Hw. simpl. by rewrite Hfiles, Hd.
Qed.

Lemma hello_block path :
  stub_block (hello_stubs path) path =
    Ok (py "hello world", py "SUM", py "Q1" ++ [LF] ++ py "Q2" ++ [LF] ++ py "Q3").
Proof.
  unfold stub_block. simpl stub_whisper. rewrite bool_decide_eq_true_2 by done.
  reflexivity.
Qed.

(** C2. With a transcription stub that maps the given audio path to
    "hello world", a summarizer stub that answers "SUM" per chunk and a
    question stub that answers Q1, Q2, Q3 per chunk, [process_audio] returns
    the tuple ("hello world", "SUM", "Q1\nQ2\nQ3", "lecture_summary.txt")
    and the file at that path holds the three values, UTF-8 encoded, each
    under its header. *)
Theorem end_to_end_with_stubs (audio_path : str) (w : World) :
  disk_fault w = None ->
  exists w' dt ds dq,
    process_audio (stub_models (hello_stubs audio_path)) audio_path w =
      (Ok (py "hello world", py "SUM",
           py "Q1" ++ [LF] ++ py "Q2" ++ [LF] ++ py "Q3",
           py "lecture_summary.txt"), w') /\
    utf8_encode (py "hello world") = Ok dt /\
    utf8_encode (py "SUM") = Ok ds /\
    utf8_encode (py "Q1" ++ [LF] ++ py "Q2" ++ [LF] ++ py "Q3") = Ok dq /\
    files w' !! py "lecture_summary.txt" =
      Some (HEADER_TRANSCRIPT_UTF8 ++ dt ++ BLANK_LINE_UTF8 ++
            HEADER_SUMMARY_UTF8 ++ ds ++ BLANK_LINE_UTF8 ++
            HEADER_QUESTIONS_UTF8 ++ dq).
Proof.
  intros Hf.
  destruct (executor_block_stub (hello_stubs audio_path) audio_path w) as (wb & Hb & _).
  rewrite hello_block in Hb.
  destruct (process_audio_healthy _ _ _ _ _ _ _ _ Hb Hf eq_refl) as (w' & Hp & Hfiles & _).
  exists w'. eexists _, _, _. split; [exact Hp|].
  split; [reflexivity|]. split; [reflexivity|]. split; [reflexivity|].
  rewrite Hfiles. apply lookup_insert_eq.
Qed.

Lemma end_to_end_with_stubs_witness :
  exists w' dt ds dq,
    process_audio (stub_models (hello_stubs (py "lecture.mp3"))) (py "lecture.mp3")
        fresh_world =
      (Ok (py "hello world", py "SUM",
           py "Q1" ++ [LF] ++ py "Q2" ++ [LF] ++ py "Q3",
           py "lecture_summary.txt"), w') /\
    utf8_encode (py "hello world") = Ok dt /\
    utf8_encode (py "SUM") = Ok ds /\
    utf8_encode (py "Q1" ++ [LF] ++ py "Q2" ++ [LF] ++ py "Q3") = Ok dq /\
    files w' !! py "lecture_summary.txt" =
      Some (HEADER_TRANSCRIPT_UTF8 ++ dt ++ BLANK_LINE_UTF8 ++
            HEADER_SUMMARY_UTF8 ++ ds ++ BLANK_LINE_UTF8 ++
            HEADER_QUESTIONS_UTF8 ++ dq).
Proof. apply (end_to_end_with_stubs (py "lecture.mp3") fresh_world). reflexivity. Defined.

(** C5. Every invocation that returns has written to the fixed relative
    path "lecture_summary.txt", replacing whatever was there, the UTF-8
    encoding of three sections in the order transcript, summary, questions:
    each is its header followed by the value, and a blank line separates a
    section from the next; the fourth element of the tuple is that path. *)
Theorem report_artifact_format (ms : Models) (audio_path : str) (w w' : World)
    (transcript summary questions file_path : str) :
  process_audio ms audio_path w = (Ok (transcript, summary, questions, file_path), w') ->
  file_path = py "lecture_summary.txt" /\
  utf8_encode ([0x1F4DD%N] ++ py " Transcription:" ++ [LF]) = Ok HEADER_TRANSCRIPT_UTF8 /\
  utf8_encode ([0x1F4DC%N] ++ py " Summary:" ++ [LF]) = Ok HEADER_SUMMARY_UTF8 /\
  utf8_encode ([0x1F914%N] ++ py " Practice Questions:" ++ [LF]) = Ok HEADER_QUESTIONS_UTF8 /\
  utf8_encode [LF; LF] = Ok BLANK_LINE_UTF8 /\
  exists dt ds dq,
    utf8_encode transcript = Ok dt /\
    utf8_encode summary = Ok ds /\
    utf8_encode questions = Ok dq /\
    files w' = <[file_path :=
                   HEADER_TRANSCRIPT_UTF8 ++ dt ++ BLANK_LINE_UTF8 ++
                   HEADER_SUMMARY_UTF8 ++ ds ++ BLANK_LINE_UTF8 ++
                   HEADER_QUESTIONS_UTF8 ++ dq]> (files w).
Proof.
  intros (-> & wb & data & _ & He & Hfiles & _)%process_audio_ok.
  apply utf8_encode_combined in He as (dt & ds & dq & Ht & Hs & Hq & ->).
  split_and!; try reflexivity. by exists dt, ds, dq.
Qed.

Lemma report_artifact_format_witness :
  exists dt ds dq,
    utf8_encode (py "hello world") = Ok dt /\
    utf8_encode (py "SUM") = Ok ds /\
    utf8_encode (py "Q1" ++ [LF] ++ py "Q2" ++ [LF] ++ py "Q3") = Ok dq /\
    files (process_audio (stub_models (hello_stubs (py "lecture.mp3")))
             (py "lecture.mp3") fresh_world).2 =
      <[py "lecture_summary.txt" :=
          HEADER_TRANSCRIPT_UTF8 ++ dt ++ BLANK_LINE_UTF8 ++
          HEADER_SUMMARY_UTF8 ++ ds ++ BLANK_LINE_UTF8 ++
          HEADER_QUESTIONS_UTF8 ++ dq]> (files fresh_world).
Proof.
  apply (report_artifact_format
           (stub_models (hello_stubs (py "lecture.mp3"))) (py "lecture.mp3")
           fresh_world
           (process_audio (stub_models (hello_stubs (py "lecture.mp3")))
              (py "lecture.mp3") fresh_world).2
           (py "hello world") (py "SUM")
           (py "Q1" ++ [LF] ++ py "Q2" ++ [LF] ++ py "Q3")
           (py "lecture_summary.txt")).
  vm_compute. reflexivity.
Defined.

(** C6. With deterministic stubs, two runs of [process_audio] on the same
    audio path return the same value, whatever their schedules, sampling
    states and earlier files; when the first run returns its tuple, so does
    the second, and the output file holds the same bytes after both. *)
Theorem two_runs_are_identical (sb : Stubs) (audio_path : str) (w1 w2 : World) :
  (disk_fault w1 = disk_fault w2 ->
   (process_audio (stub_models sb) audio_path w1).1 =
   (process_audio (stub_models sb) audio_path w2).1) /\
  (forall out w1',
     process_audio (stub_models sb) audio_path w1 = (Ok out, w1') ->
     disk_fault w2 = None ->
     exists w2' data,
       process_audio (stub_models sb) audio_path w2 = (Ok out, w2') /\
       files w1' !! FILE_PATH = Some data /\
       files w2' !! FILE_PATH = Some data) /\
  (forall out w1',
     process_audio (stub_models sb) audio_path w1 = (Ok out, w1') ->
     exists w1'',
       process_audio (stub_models sb) audio_path w1' = (Ok out, w1'') /\
       files w1'' !! FILE_PATH = files w1' !! FILE_PATH).
Proof.
  assert (forall wa wb out wa',
            process_audio (stub_models sb) audio_path wa = (Ok out, wa') ->
            disk_fault wb = None ->
            exists wb' data,
              process_audio (stub_models sb) audio_path wb = (Ok out, wb') /\
              files wa' !! FILE_PATH = Some data /\
              files wb' !! FILE_PATH = Some data) as Hrun.
  { intros wa wb [[[t s] q] fp] wa' Hp Hf.
    apply process_audio_ok in Hp as (-> & wx & data & Hb & He & Hfiles & _).
    destruct (executor_block_stub sb audio_path wa) as (wx' & Hb' & _).
    rewrite Hb in Hb'. injection Hb' as Hblock _.
    destruct (executor_block_stub sb audio_path wb) as (wy & Hy & _).
    rewrite <- Hblock in Hy.
    destruct (process_audio_healthy _ _ _ _ _ _ _ _ Hy Hf He) as (wb' & Hp2 & Hfiles2 & _).
    exists wb', data. split; [done|].
    rewrite Hfiles, Hfiles2. by rewrite !lookup_insert_eq. }
  split_and!.
  - apply process_audio_stub_result.
  - intros out w1'. apply Hrun.
  - intros out w1' Hp.
    assert (disk_fault w1' = None) as Hf.
    { destruct out as [[[t s] q] fp]. by apply process_audio_ok in Hp as (_ & ? & ? & ? & ? & ? & ? & ? & ?). }
    destruct (Hrun w1 w1' out w1' Hp Hf) as (w1'' & data & Hp2 & H1 & H2).
    exists w1''. split; [done|congruence].
Qed.

Lemma two_runs_are_identical_witness :
  exists w2' data,
    process_audio (stub_models (hello_stubs (py "lecture.mp3"))) (py "lecture.mp3")
        late_first_world =
      (Ok (py "hello world", py "SUM",
           py "Q1" ++ [LF] ++ py "Q2" ++ [LF] ++ py "Q3", FILE_PATH), w2') /\
    files (process_audio (stub_models (hello_stubs (py "lecture.mp3")))
             (py "lecture.mp3") fresh_world).2 !! FILE_PATH = Some data /\
    files w2' !! FILE_PATH = Some data.
Proof.
  refine (proj1 (proj2 (two_runs_are_identical (hello_stubs (py "lecture.mp3"))
                          (py "lecture.mp3") fresh_world late_first_world)) _ _ _ _).
  - vm_compute. reflexivity.
  - reflexivity.
Defined.

(** ** The empty transcript *)

Lemma text_chunks_empty : text_chunks [] = [].
Proof. apply chunks_of_nil. unfold CHUNK. lia. Qed.

Lemma generate_questions_empty ms w :
  generate_questions ms [] w =
    (Ok [], log (EvShutdown QuestPool) (log (EvPrint GENERATING) w)).
Proof.
  unfold generate_questions, question_list, bind, st_bind, print, with_executor, st_bind.
  rewrite text_chunks_empty. reflexivity.
Qed.

(** C10. On the empty transcript the summarizer is called on zero chunks
    and [summarize_text] returns the empty string when it answers zero
    summaries; [generate_questions] calls no model and returns the empty
    string; and when the transcription is empty [process_audio] returns
    four values of which the first three are empty, and writes a file
    that holds the three headers with nothing under them. *)
Theorem empty_transcript_gives_empty_outputs (ms : Models) (audio_path : str) (w : World) :
  text_chunks [] = [] /\
  ((summarizer ms ([], SUMMARY_KWARGS) (rng w)).1 = Ok [] ->
   (summarize_text ms [] w).1 = Ok []) /\
  trace (summarize_text ms [] w).2 =
    trace w ++ [EvPrint SUMMARIZING; EvSummarizer [] SUMMARY_KWARGS] /\
  generate_questions ms [] w =
    (Ok [], log (EvShutdown QuestPool) (log (EvPrint GENERATING) w)) /\
  (forall res,
     (whisper_model ms audio_path (rng w)).1 = Ok res -> text res = [] ->
     (forall g, (summarizer ms ([], SUMMARY_KWARGS) g).1 = Ok []) ->
     disk_fault w = None ->
     exists w',
       process_audio ms audio_path w = (Ok ([], [], [], py "lecture_summary.txt"), w') /\
       files w' !! py "lecture_summary.txt" =
         Some (HEADER_TRANSCRIPT_UTF8 ++ BLANK_LINE_UTF8 ++
               HEADER_SUMMARY_UTF8 ++ BLANK_LINE_UTF8 ++ HEADER_QUESTIONS_UTF8)).
Proof.
  split; [apply text_chunks_empty|].
  split; [|split; [|split; [apply generate_questions_empty|]]].
  - intros Hs. by rewrite summarize_text_answer, text_chunks_empty, Hs.
  - rewrite summarize_text_run, text_chunks_empty. simpl. by rewrite <- app_assoc.
  - intros res Hw Ht Hsum Hf.
    destruct (executor_block_spec ms audio_path w) as (rb & wb & tr & Hb & _ & _ & H).
    rewrite Hw, Ht in H.
    destruct H as (rs & rq & _ & _ & _ & _ & [g Hrs] & (outs & Hans & Hrq)
                   & _ & _ & _ & _ & Hrb & _).
    unfold sum_answer in Hrs. rewrite text_chunks_empty in Hrs, Hans.
    rewrite Hsum in Hrs. apply Forall2_nil_inv_l in Hans. subst. simpl in Hb.
    destruct (process_audio_healthy _ _ _ _ _ _ _ _ Hb Hf eq_refl) as (w' & Hp & Hfiles & _).
    exists w'. split; [exact Hp|]. rewrite Hfiles. apply lookup_insert_eq.
Qed.

Lemma empty_transcript_gives_empty_outputs_witness :
  (summarize_text (stub_models silent_stubs) [] fresh_world).1 = Ok [] /\
  exists w',
    process_audio (stub_models silent_stubs) (py "silence.wav") fresh_world =
      (Ok ([], [], [], py "lecture_summary.txt"), w') /\
    files w' !! py "lecture_summary.txt" =
      Some (HEADER_TRANSCRIPT_UTF8 ++ BLANK_LINE_UTF8 ++
            HEADER_SUMMARY_UTF8 ++ BLANK_LINE_UTF8 ++ HEADER_QUESTIONS_UTF8).
Proof.
  pose proof (empty_transcript_gives_empty_outputs
                (stub_models silent_stubs) (py "silence.wav") fresh_world)
    as (_ & Hsum & _ & _ & Hrun).
  split.
  - apply Hsum. reflexivity.
  - apply (Hrun {| text := []; language := py "en" |}); reflexivity.
Defined.

(** ** Exceptions *)

Lemma gather_first_raise outs acc i e :
  outs !! i = Some (Raise e) ->
  (forall j, j < i -> exists g, outs !! j = Some (Ok g)) ->
  gather outs acc = Raise e.
Proof.
  revert acc i. induction outs as [|r outs IH]; intros acc [|i] Hi Hlt; simpl in *; try done.
  - by injection Hi as ->.
  - destruct (Hlt 0) as [g [= ->]]; [lia|].
    apply (IH _ i); [done|]. intros j Hj. apply (Hlt (S j)). lia.
Qed.

Lemma process_audio_block_raise ms path w e wb :
  executor_block ms path w = (Raise e, wb) ->
  process_audio ms path w = (Raise e, wb).
Proof. intros Hb. by rewrite process_audio_run, Hb. Qed.

(** An exception of the [with] block leaves the files as they were. *)
Lemma process_audio_block_raise_files ms path w e :
  (executor_block ms path w).1 = Raise e ->
  (process_audio ms path w).1 = Raise e /\
  files (process_audio ms path w).2 = files w.
Proof.
  intros Hb. destruct (executor_block_spec ms path w) as (rb & wb & tr & Heq & [Hd _] & _).
  rewrite Heq in Hb. simpl in Hb. subst rb.
  by rewrite (process_audio_block_raise _ _ _ _ _ Heq).
Qed.

Lemma block_result_raise t rs rq e :
  block_result t rs rq = Raise e ->
  rs = Raise e \/ (exists s, rs = Ok s /\ rq = Raise e).
Proof.
  destruct rs as [s|e1]; simpl; [|intros [= ->]; by left].
  destruct rq as [q|e2]; [done|]. intros [= ->]. right. eauto.
Qed.

(** C7. Nothing is caught, retried or replaced.  [transcribe_audio]
    raises exactly what the transcription model raises; when it does, the
    invocation ends after that one call.  [process_audio]
    raises exactly the exception of the transcription, of the summarization,
    of the first failing question call in chunk order, or of the file write;
    when a model call raised, the files are as they were before, so the
    report is not written.  Conversely every exception [process_audio]
    raises is one that a model call or the write raised. *)
Theorem exceptions_propagate_unchanged (ms : Models) (audio_path : str) (w : World)
    (e : PyExn) :
  (transcribe_audio ms audio_path w).1 =
    result_map text (whisper_model ms audio_path (rng w)).1 /\
  ((whisper_model ms audio_path (rng w)).1 = Raise e ->
   (transcribe_audio ms audio_path w).1 = Raise e /\
   (process_audio ms audio_path w).1 = Raise e /\
   files (process_audio ms audio_path w).2 = files w /\
   trace (process_audio ms audio_path w).2 =
     trace w ++ transcription_events audio_path ++ [EvShutdown OrchPool]) /\
  (forall res,
     (whisper_model ms audio_path (rng w)).1 = Ok res ->
     (forall g, (summarizer ms (text_chunks (text res), SUMMARY_KWARGS) g).1 = Raise e) ->
     (process_audio ms audio_path w).1 = Raise e /\
     files (process_audio ms audio_path w).2 = files w) /\
  (forall res i c,
     (whisper_model ms audio_path (rng w)).1 = Ok res ->
     (forall g, is_ok (summarizer ms (text_chunks (text res), SUMMARY_KWARGS) g).1) ->
     text_chunks (text res) !! i = Some c ->
     (forall g, quest_answer ms c g = Raise e) ->
     (forall j c' g, j < i -> text_chunks (text res) !! j = Some c' ->
                     is_ok (quest_answer ms c' g)) ->
     (process_audio ms audio_path w).1 = Raise e /\
     files (process_audio ms audio_path w).2 = files w) /\
  (forall t s q wb,
     executor_block ms audio_path w = (Ok (t, s, q), wb) ->
     (write_text FILE_PATH (combined_text t s q) wb).1 = Raise e ->
     (process_audio ms audio_path w).1 = Raise e) /\
  ((process_audio ms audio_path w).1 = Raise e ->
   (whisper_model ms audio_path (rng w)).1 = Raise e \/
   exists res,
     (whisper_model ms audio_path (rng w)).1 = Ok res /\
     ((exists g, (summarizer ms (text_chunks (text res), SUMMARY_KWARGS) g).1 = Raise e) \/
      (exists c g, c ∈ text_chunks (text res) /\ quest_answer ms c g = Raise e) \/
      disk_fault w = Some (OpenFails e) \/
      (exists n, disk_fault w = Some (WriteFails e n)) \/
      (exists s q, utf8_encode (combined_text (text res) s q) = Raise e))).
Proof.
  destruct (executor_block_spec ms audio_path w)
    as (rb & wb & tr & Hb & [Hfiles Hfault] & Htr & H).
  split_and!.
  - by rewrite transcribe_audio_run.
  - intros Hw. rewrite Hw in H. destruct H as [-> ->].
    split; [by rewrite transcribe_audio_run, Hw|].
    rewrite (process_audio_block_raise _ _ _ _ _ Hb). by split_and!.
  - intros res Hw Hsum. rewrite Hw in H.
    destruct H as (rs & rq & _ & _ & _ & _ & [g Hrs] & _ & _ & _ & _ & _ & -> & _).
    apply process_audio_block_raise_files. rewrite Hb. simpl.
    unfold sum_answer in Hrs. rewrite Hsum in Hrs. by subst rs.
  - intros res i c Hw Hsum Hc Hraise Hbefore. rewrite Hw in H.
    destruct H as (rs & rq & _ & _ & _ & _ & [g Hrs] & (outs & Hans & Hrq)
                   & _ & _ & _ & _ & -> & _).
    apply process_audio_block_raise_files. rewrite Hb. simpl.
    unfold sum_answer in Hrs. specialize (Hsum g).
    destruct (summarizer ms _ g).1 as [sums|]; [|done]. subst rs. simpl.
    assert (gather outs [] = Raise e) as Hg.
    { apply (gather_first_raise _ _ i).
      - destruct (Forall2_lookup_l _ _ _ _ _ Hans Hc) as (r & Hr & [g' ->]).
        by rewrite Hr, Hraise.
      - intros j Hj. assert (j < length (text_chunks (text res))) as Hjl.
        { apply lookup_lt_Some in Hc. lia. }
        destruct (lookup_lt_is_Some_2 _ _ Hjl) as [c' Hc'].
        destruct (Forall2_lookup_l _ _ _ _ _ Hans Hc') as (r & Hr & [g' ->]).
        specialize (Hbefore j c' g' Hj Hc'). rewrite Hr.
        destruct (quest_answer ms c' g'); [eauto|done]. }
    by rewrite Hrq, Hg.
  - intros t s q wb' Hb' Hwrite. rewrite process_audio_run, Hb'. simpl. by rewrite Hwrite.
  - rewrite process_audio_run, Hb. simpl.
    destruct (whisper_model ms audio_path (rng w)).1 as [res|e0].
    + destruct H as (rs & rq & _ & _ & _ & _ & [g Hrs] & (outs & Hans & Hrq)
                   & _ & _ & _ & _ & -> & _).
      intros Hp. right. exists res. split; [done|].
      destruct (block_result (text res) rs rq) as [[[t s] q]|e1] eqn:Hblock.
      * assert (t = text res) as ->.
        { destruct rs as [?|?]; [|done]. destruct rq as [?|?]; [|done].
          simpl in Hblock. congruence. }
        simpl in Hp.
        destruct (write_text FILE_PATH (combined_text (text res) s q) wb)
          as [[[]|e2] w2] eqn:Hwt; [done|]. injection Hp as ->.
        apply write_text_raise in Hwt as [[Ho _]|[He|[n Hn]]].
        -- right; right; left. congruence.
        -- right; right; right; right. eauto.
        -- right; right; right; left. exists n. congruence.
      * injection Hp as ->. apply block_result_raise in Hblock as [->|(s & -> & ->)].
        -- left. exists g. unfold sum_answer in Hrs.
           destruct (summarizer ms _ g).1; [done|]. by injection Hrs as ->.
        -- right; left. symmetry in Hrq.
           destruct (gather outs []) as [qs|e2] eqn:Hg; [done|]. injection Hrq as ->.
           apply gather_raise_inv in Hg as (i & Hi & _).
           destruct (Forall2_lookup_r _ _ _ _ _ Hans Hi) as (c & Hc & [g' Hg']).
           exists c, g'. split; [by eapply list_elem_of_lookup_2|done].
    + destruct H as [-> _]. intros [= ->]. by left.
Qed.

Lemma exceptions_propagate_unchanged_witness :
  ((transcribe_audio (stub_models echo_stubs) (py "lecture.mp3") fresh_world).1 =
     Raise (LibraryError "whisper" 2) /\
   (process_audio (stub_models echo_stubs) (py "lecture.mp3") fresh_world).1 =
     Raise (LibraryError "whisper" 2) /\
   files (process_audio (stub_models echo_stubs) (py "lecture.mp3") fresh_world).2 =
     files fresh_world /\
   trace (process_audio (stub_models echo_stubs) (py "lecture.mp3") fresh_world).2 =
     trace fresh_world ++ transcription_events (py "lecture.mp3") ++ [EvShutdown OrchPool]) /\
  ((process_audio (stub_models no_summary_stubs) (py "lecture.mp3") fresh_world).1 =
     Raise (LibraryError "summarizer" 1) /\
   files (process_audio (stub_models no_summary_stubs) (py "lecture.mp3") fresh_world).2 =
     files fresh_world) /\
  ((process_audio (stub_models no_questions_stubs) (py "lecture.mp3") late_first_world).1 =
     Raise (LibraryError "generator" 1) /\
   files (process_audio (stub_models no_questions_stubs) (py "lecture.mp3")
            late_first_world).2 = files late_first_world) /\
  (process_audio (stub_models (hello_stubs (py "lecture.mp3"))) (py "lecture.mp3")
     full_disk_world).1 = Raise (OSError 28).
Proof.
  split; [|split; [|split]].
  - apply (exceptions_propagate_unchanged (stub_models echo_stubs) (py "lecture.mp3")
             fresh_world (LibraryError "whisper" 2)).
    reflexivity.
  - apply (proj1 (proj2 (proj2 (exceptions_propagate_unchanged
             (stub_models no_summary_stubs) (py "lecture.mp3") fresh_world
             (LibraryError "summarizer" 1))))
             {| text := py "hello world"; language := py "en" |}).
    + reflexivity.
    + intros g. reflexivity.
  - apply (proj1 (proj2 (proj2 (proj2 (exceptions_propagate_unchanged
             (stub_models no_questions_stubs) (py "lecture.mp3") late_first_world
             (LibraryError "generator" 1)))))
             {| text := py "hello world"; language := py "en" |} 0 (py "hello world")).
    + reflexivity.
    + intros g. exact I.
    + reflexivity.
    + intros g. reflexivity.
    + intros j c' g Hj. lia.
  - apply (proj1 (proj2 (proj2 (proj2 (proj2 (exceptions_propagate_unchanged
             (stub_models (hello_stubs (py "lecture.mp3"))) (py "lecture.mp3")
             full_disk_world (OSError 28))))))
             (py "hello world") (py "SUM")
             (py "Q1" ++ [LF] ++ py "Q2" ++ [LF] ++ py "Q3")
             (executor_block (stub_models (hello_stubs (py "lecture.mp3")))
                (py "lecture.mp3") full_disk_world).2).
    + vm_compute. reflexivity.
    + vm_compute. reflexivity.
Defined.

(** ** The order of events in one invocation *)

(** In a trace [X ++ a :: Y], an event that is neither in [X] nor [a]
    itself can only occur after [a]. *)
Lemma occurs_after {A} (X Y pre post : list A) (a b : A) :
  X ++ a :: Y = pre ++ b :: post -> b ∉ X -> a <> b -> a ∈ pre.
Proof.
  intros Heq Hb Hab. apply app_eq_inv in Heq as [(k & -> & Hk)|(k & -> & Hk)].
  - destruct k as [|c k]; simpl in Hk.
    + injection Hk as Hba _. by subst.
    + injection Hk as <- _. exfalso. apply Hb, elem_of_app. right. by left.
  - destruct k as [|c k]; simpl in Hk.
    + injection Hk as Hba _. by subst.
    + injection Hk as -> _. apply elem_of_app. right. by left.
Qed.

Lemma write_text_trace path s w :
  exists tw, trace (write_text path s w).2 = trace w ++ tw /\ Forall file_event tw.
Proof.
  rewrite write_text_run.
  destruct (disk_fault w) as [[e|e n]|]; simpl;
    try destruct (utf8_encode s); simpl;
    try (by exists []; rewrite app_nil_r);
    rewrite <- ?app_assoc; eexists; (split; [done|]); by repeat constructor.
Qed.

Lemma process_audio_trace ms path w :
  exists tw,
    trace (process_audio ms path w).2 = trace (executor_block ms path w).2 ++ tw /\
    Forall file_event tw.
Proof.
  rewrite process_audio_run.
  destruct (executor_block ms path w) as [[[[t s] q]|e] wb]; simpl.
  - apply write_text_trace.
  - exists []. by rewrite app_nil_r.
Qed.

Lemma await_not_in_transcription i audio_path :
  EvAwait OrchPool (S i) ∉ transcription_events audio_path.
Proof.
  intros Hin. repeat (apply elem_of_cons in Hin as [[=]|Hin]). by apply elem_of_nil in Hin.
Qed.

Lemma await_not_file_event i tw : Forall file_event tw -> EvAwait OrchPool i ∉ tw.
Proof. rewrite Forall_forall. intros H Hin. by apply H in Hin. Qed.

Lemma await_not_downstream i tr : Forall downstream_event tr -> EvAwait OrchPool i ∉ tr.
Proof. rewrite Forall_forall. intros H Hin. by apply H in Hin. Qed.

(** C8. In every invocation of [process_audio] the transcription task has
    completed before any event of summarization or of question generation,
    which are both submitted after it and work on the finished transcript;
    the result of the questions future is taken only after that of the
    summary future; and when the tuple is returned the write of the report
    is the last thing that happened. *)
Theorem orchestrator_sequencing (ms : Models) (audio_path : str) (w : World) :
  exists tr,
    trace (process_audio ms audio_path w).2 = trace w ++ tr /\
    (exists rest, tr = transcription_events audio_path ++ rest) /\
    (forall res,
       (whisper_model ms audio_path (rng w)).1 = Ok res ->
       exists rest,
         tr = transcription_events audio_path ++ EvSubmit OrchPool 1 :: rest /\
         EvSubmit OrchPool 2 ∈ rest /\
         EvSummarizer (text_chunks (text res)) SUMMARY_KWARGS ∈ rest /\
         EvPrint GENERATING ∈ rest) /\
    (forall pre ev post,
       tr = pre ++ ev :: post -> downstream_event ev ->
       EvTaskDone OrchPool 0 ∈ pre) /\
    (forall pre post,
       tr = pre ++ EvAwait OrchPool 2 :: post -> EvAwait OrchPool 1 ∈ pre) /\
    (forall out,
       (process_audio ms audio_path w).1 = Ok out ->
       exists pre data,
         tr = pre ++ [EvOpen FILE_PATH; EvWrite FILE_PATH data; EvClose FILE_PATH] /\
         files (process_audio ms audio_path w).2 !! FILE_PATH = Some data).
Proof.
  destruct (executor_block_spec ms audio_path w) as (rb & wb & tr & Hb & _ & Htr & H).
  destruct (process_audio_trace ms audio_path w) as (tw & Htw & Hfile).
  rewrite Hb in Htw. simpl in Htw.
  exists (transcription_events audio_path ++ tr ++ tw). split_and!.
  - rewrite Htw, Htr. by rewrite <- !app_assoc.
  - by eexists.
  - intros res Hw. rewrite Hw in H.
    destruct H as (rs & rq & tr0 & trA & trB & trC & _ & _ & _ & _ & _ & _ & _
                   & Hshape & Hm1 & Hm2).
    rewrite Hshape in Hm1, Hm2 |- *. cbn [app] in Hm1, Hm2 |- *.
    eexists. split; [reflexivity|].
    apply elem_of_cons in Hm1 as [[=]|Hm1]. apply elem_of_cons in Hm2 as [[=]|Hm2].
    split_and!; try (apply elem_of_app; by left).
    apply elem_of_app. left. apply elem_of_app. right. by left.
  - intros pre ev post Heq Hev.
    change (transcription_events audio_path ++ tr ++ tw) with
      ([EvSubmit OrchPool 0; EvTaskStart OrchPool 0;
        EvPrint (py "Transcribing audio..."); EvWhisper audio_path] ++
       EvTaskDone OrchPool 0 :: ([EvAwait OrchPool 0] ++ tr ++ tw)) in Heq.
    apply (occurs_after _ _ _ _ _ _ Heq).
    + intros Hin. repeat (apply elem_of_cons in Hin as [->|Hin]; [done|]).
      by apply elem_of_nil in Hin.
    + by intros <-.
  - intros pre post Heq.
    destruct (whisper_model ms audio_path (rng w)).1 as [res|e].
    + destruct H as (rs & rq & tr0 & trA & trB & trC & _ & _ & H0 & HA & _ & _ & _ & Hshape & _).
      set (Y := match rs with
                | Ok _ => trB ++ [EvAwait OrchPool 2]
                | Raise _ => []
                end ++ trC ++ [EvShutdown OrchPool]) in Hshape.
      assert (transcription_events audio_path ++ tr ++ tw =
              (transcription_events audio_path ++
               [EvSubmit OrchPool 1] ++ tr0 ++ [EvSubmit OrchPool 2] ++ trA) ++
              EvAwait OrchPool 1 :: (Y ++ tw)) as Hsplit.
      { rewrite Hshape. by rewrite <- !app_assoc. }
      rewrite Hsplit in Heq. apply (occurs_after _ _ _ _ _ _ Heq); [|done].
      rewrite !elem_of_app. intros [Hin|[Hin|[Hin|[Hin|Hin]]]].
      * by apply await_not_in_transcription in Hin.
      * repeat (apply elem_of_cons in Hin as [[=]|Hin]). by apply elem_of_nil in Hin.
      * by apply await_not_downstream in Hin.
      * repeat (apply elem_of_cons in Hin as [[=]|Hin]). by apply elem_of_nil in Hin.
      * by apply await_not_downstream in Hin.
    + destruct H as [_ ->]. exfalso.
      assert (EvAwait OrchPool 2 ∈
              transcription_events audio_path ++ [EvShutdown OrchPool] ++ tw)
        as Hin by (rewrite Heq; apply elem_of_app; right; by left).
      rewrite !elem_of_app in Hin. destruct Hin as [Hin|[Hin|Hin]].
      * by apply await_not_in_transcription in Hin.
      * repeat (apply elem_of_cons in Hin as [[=]|Hin]). by apply elem_of_nil in Hin.
      * by apply await_not_file_event in Hin.
  - intros [[[t s] q] fp] Hout.
    destruct (process_audio ms audio_path w) as [r w'] eqn:Hp. simpl in *. subst r.
    apply process_audio_ok in Hp as (-> & wb' & data & Hb' & _ & Hfiles & Ht & _).
    rewrite Hb in Hb'. injection Hb' as -> <-.
    rewrite Ht in Htw. apply app_inv_head in Htw as <-.
    exists (transcription_events audio_path ++ tr), data. split.
    + by rewrite <- !app_assoc.
    + rewrite Hfiles. apply lookup_insert_eq.
Qed.

Lemma orchestrator_sequencing_witness :
  exists pre data,
    trace (process_audio (stub_models (hello_stubs (py "lecture.mp3")))
             (py "lecture.mp3") late_first_world).2 =
      trace late_first_world ++ pre ++
      [EvOpen FILE_PATH; EvWrite FILE_PATH data; EvClose FILE_PATH] /\
    files (process_audio (stub_models (hello_stubs (py "lecture.mp3")))
             (py "lecture.mp3") late_first_world).2 !! FILE_PATH = Some data.
Proof.
  destruct (orchestrator_sequencing (stub_models (hello_stubs (py "lecture.mp3")))
              (py "lecture.mp3") late_first_world) as (tr & Htr & _ & _ & _ & _ & Hret).
  destruct (Hret (py "hello world", py "SUM",
                  py "Q1" ++ [LF] ++ py "Q2" ++ [LF] ++ py "Q3", FILE_PATH))
    as (pre & data & Hpre & Hfile).
  - vm_compute. reflexivity.
  - exists pre, data. split; [|exact Hfile]. rewrite Htr, Hpre. reflexivity.
Defined.

(** * Further properties of the code *)

(** ** More on the chunker (lines 21 and 27) *)

Section ChunkerMore.
Context {A : Type}.
Variable k : nat.
Hypothesis k_pos : 0 < k.

Lemma chunks_of_last (s : list A) :
  s <> [] ->
  exists c, last (chunks_of k s) = Some c /\
            length c = if length s mod k =? 0 then k else length s mod k.
Proof.
  induction s as [|s Hs IH] using (chunks_of_ind k k_pos); [done|]. intros _.
  rewrite chunks_of_cons by done.
  destruct (drop k s) as [|a r] eqn:Hd.
  - rewrite chunks_of_nil by done. exists (take k s). split; [done|].
    assert (length (drop k s) = 0) as Hl by (by rewrite Hd).
    rewrite length_drop in Hl. rewrite take_ge by lia.
    assert (0 < length s) by (destruct s; [done|simpl; lia]).
    destruct (decide (length s = k)) as [->|Hne].
    + by rewrite Nat.Div0.mod_same.
    + rewrite Nat.mod_small by lia. destruct (Nat.eqb_spec (length s) 0); [lia|done].
  - destruct IH as (c & Hc & Hlen); [done|].
    assert (chunks_of k (a :: r) <> []) as Hne by (by apply chunks_of_nonempty).
    exists c. split.
    + destruct (chunks_of k (a :: r)) as [|x l]; [done|]. by rewrite last_cons_cons.
    + rewrite Hlen. assert (length (drop k s) = S (length r)) as Hl by (by rewrite Hd).
      rewrite length_drop in Hl. simpl.
      replace (length s) with (S (length r) + 1 * k) by lia.
      by rewrite Nat.Div0.mod_add.
Qed.

Lemma chunks_of_app (n : nat) (a b : list A) :
  length a = n * k -> chunks_of k (a ++ b) = chunks_of k a ++ chunks_of k b.
Proof.
  revert a. induction n as [|n IH]; intros a Hlen.
  - destruct a; [|done]. by rewrite chunks_of_nil.
  - assert (a <> []) as Ha by (intros ->; simpl in Hlen; lia).
    rewrite (chunks_of_cons k k_pos a Ha).
    rewrite (chunks_of_cons k k_pos (a ++ b)) by (destruct a; done).
    rewrite take_app_le, drop_app_le by lia. simpl. f_equal.
    apply IH. rewrite length_drop. lia.
Qed.
End ChunkerMore.

(** X1. No chunk is empty and none has more than 1024 characters, so a
    model is never asked about an empty passage; the last chunk of a
    non-empty text has [len mod 1024] characters, or 1024 when the length
    is a multiple of 1024. *)
Theorem chunk_sizes (s : str) :
  (forall c, c ∈ text_chunks s -> 0 < length c <= 1024) /\
  (s <> [] ->
   exists c, last (text_chunks s) = Some c /\
             length c = if length s mod 1024 =? 0 then 1024 else length s mod 1024).
Proof.
  assert (0 < CHUNK) as Hk by (unfold CHUNK; lia). split.
  - intros c. apply chunks_of_bounds, Hk.
  - apply (chunks_of_last CHUNK Hk).
Qed.

Lemma chunk_sizes_witness :
  exists c, last (text_chunks two_chunk_text) = Some c /\ length c = 1.
Proof.
  destruct (proj2 (chunk_sizes two_chunk_text)) as (c & Hc & Hl); [done|].
  exists c. split; [exact Hc|]. rewrite Hl. vm_compute. reflexivity.
Defined.

(** X2. Chunking commutes with concatenation at a chunk boundary: when
    the first part has a multiple of 1024 characters, the chunks of the whole
    are the chunks of the first part followed by those of the second. *)
Theorem text_chunks_app (a b : str) :
  length a mod 1024 = 0 ->
  text_chunks (a ++ b) = text_chunks a ++ text_chunks b.
Proof.
  intros Hmod. assert (0 < CHUNK) as Hk by (unfold CHUNK; lia).
  apply (chunks_of_app CHUNK Hk (length a / 1024)).
  pose proof (Nat.div_mod_eq (length a) 1024) as H. unfold CHUNK. lia.
Qed.

Lemma text_chunks_app_witness :
  text_chunks (replicate 1024 97%N ++ py "b") =
    text_chunks (replicate 1024 97%N) ++ text_chunks (py "b").
Proof. apply text_chunks_app. vm_compute. reflexivity. Defined.

(** ** More on the file write (lines 58 to 62) *)

Lemma utf8_encode_cp_None (c : codepoint) :
  utf8_encode_cp c = None <-> unencodable c.
Proof.
  unfold utf8_encode_cp, unencodable.
  destruct (N.ltb_spec c 0x80); [split; [done|lia]|].
  destruct (N.ltb_spec c 0x800); [split; [done|lia]|].
  destruct (N.ltb_spec c 0x10000).
  - destruct (N.leb_spec 0xD800 c), (N.leb_spec c 0xDFFF); simpl; split; try done; lia.
  - destruct (N.ltb_spec c 0x110000); split; try done; lia.
Qed.

(** Encoding fails at the first code point that cannot be encoded, and
    only there. *)
Lemma utf8_encode_from_raise pos s i c :
  s !! i = Some c -> unencodable c ->
  (forall j c', j < i -> s !! j = Some c' -> ~ unencodable c') ->
  utf8_encode_from pos s = Raise (UnicodeEncodeError (pos + i)).
Proof.
  revert pos i. induction s as [|x s IH]; intros pos [|i] Hi Hc Hbefore; simpl in *; try done.
  - injection Hi as ->. apply utf8_encode_cp_None in Hc. rewrite Hc, Nat.add_0_r. done.
  - destruct (utf8_encode_cp x) as [bs|] eqn:Hx.
    + rewrite (IH (S pos) i Hi Hc).
      * do 2 f_equal. lia.
      * intros j c' Hj Hc'. apply (Hbefore (S j)); [lia|done].
    + apply utf8_encode_cp_None in Hx. exfalso. apply (Hbefore 0 x); [lia|done|done].
Qed.

Lemma unencodableb_spec (c : codepoint) : unencodableb c = true <-> unencodable c.
Proof.
  unfold unencodableb, unencodable.
  rewrite orb_true_iff, andb_true_iff, !N.leb_le. done.
Qed.

Lemma encodable_prefix (l : str) (i : nat) :
  forallb (fun c => negb (unencodableb c)) (take i l) = true ->
  forall j c', j < i -> l !! j = Some c' -> ~ unencodable c'.
Proof.
  intros Hall j c' Hj Hc' Hun. apply unencodableb_spec in Hun.
  rewrite forallb_forall in Hall. specialize (Hall c').
  rewrite Hun in Hall. simpl in Hall. assert (false = true) as Habs; [|done].
  apply Hall. apply list_elem_of_In. apply (list_elem_of_lookup_2 _ j).
  by rewrite lookup_take_lt.
Qed.

Lemma write_text_files path s w other :
  other <> path -> files (write_text path s w).2 !! other = files w !! other.
Proof.
  intros Hne. rewrite write_text_run.
  destruct (disk_fault w) as [[e|e n]|]; simpl; try done;
    destruct (utf8_encode s); simpl; by rewrite ?lookup_insert_ne.
Qed.

(** X3. [process_audio] touches no file but "lecture_summary.txt": in every
    run, returning or raising, every other path holds what it held before;
    the three adapters leave all files alone. *)
Theorem only_the_report_is_written (ms : Models) (audio_path : str) (w : World) :
  (forall other, other <> py "lecture_summary.txt" ->
     files (process_audio ms audio_path w).2 !! other = files w !! other) /\
  files (transcribe_audio ms audio_path w).2 = files w /\
  (forall text, files (summarize_text ms text w).2 = files w) /\
  (forall text, files (generate_questions ms text w).2 = files w).
Proof.
  split_and!.
  - intros other Hne. rewrite process_audio_run.
    destruct (executor_block_spec ms audio_path w) as (rb & wb & tr & Hb & [Hf _] & _).
    rewrite Hb. simpl. destruct rb as [[[t s] q]|e]; simpl; [|by rewrite Hf].
    by rewrite write_text_files, Hf.
  - by rewrite transcribe_audio_run.
  - intros text. by rewrite summarize_text_run.
  - intros text. destruct (generate_questions_spec ms text w) as (outs & w' & -> & _ & [Hf _] & _).
    done.
Qed.

Lemma only_the_report_is_written_witness :
  files (process_audio (stub_models (hello_stubs (py "lecture.mp3"))) (py "lecture.mp3")
           used_world).2 !! py "notes.txt" = files used_world !! py "notes.txt".
Proof.
  apply (only_the_report_is_written (stub_models (hello_stubs (py "lecture.mp3")))
           (py "lecture.mp3") used_world).
  vm_compute. discriminate.
Defined.

(** X4. When the report file cannot be opened, [process_audio] raises the
    exception of [open] after the whole [with] block has run: the world it
    leaves is the one the block left, no file event happened and all files,
    the earlier report included, are as before. *)
Theorem open_failure_keeps_the_old_report (ms : Models) (audio_path : str) (w wb : World)
    (t s q : str) (e : PyExn) :
  executor_block ms audio_path w = (Ok (t, s, q), wb) ->
  disk_fault w = Some (OpenFails e) ->
  process_audio ms audio_path w = (Raise e, wb) /\
  files wb = files w /\
  Forall (fun ev => negb (file_event ev)) (new_events w wb).
Proof.
  intros Hb Hf.
  destruct (executor_block_spec ms audio_path w) as (rb & wb' & tr & Hb' & [Hfiles Hfault] & Htr & H).
  rewrite Hb in Hb'. injection Hb' as <- <-.
  split; [|split; [done|]].
  - rewrite process_audio_run, Hb. simpl. rewrite write_text_run, Hfault, Hf. done.
  - unfold new_events. rewrite Htr, drop_app_length.
    destruct (whisper_model ms audio_path (rng w)).1 as [res|e0]; [|by destruct H].
    destruct H as (rs & rq & tr0 & trA & trB & trC & _ & _ & H0 & HA & HB & HC & _ & -> & _).
    assert (forall l, Forall downstream_event l ->
                      Forall (fun ev => negb (file_event ev)) l) as Hdown.
    { intros l Hl. eapply Forall_impl; [exact Hl|]. intros ev Hev. by destruct ev. }
    repeat (apply Forall_app; split); try (by apply Hdown); try (by repeat constructor).
    destruct rs; [|done]. apply Forall_app. split; [by apply Hdown|by repeat constructor].
Qed.

Lemma open_failure_keeps_the_old_report_witness :
  process_audio (stub_models (hello_stubs (py "lecture.mp3"))) (py "lecture.mp3")
    locked_world =
    (Raise (OSError 13),
     (executor_block (stub_models (hello_stubs (py "lecture.mp3")))
        (py "lecture.mp3") locked_world).2) /\
  files (executor_block (stub_models (hello_stubs (py "lecture.mp3")))
           (py "lecture.mp3") locked_world).2 = files locked_world /\
  Forall (fun ev => negb (file_event ev))
    (new_events locked_world
       (executor_block (stub_models (hello_stubs (py "lecture.mp3")))
          (py "lecture.mp3") locked_world).2).
Proof.
  apply (open_failure_keeps_the_old_report
           (stub_models (hello_stubs (py "lecture.mp3"))) (py "lecture.mp3") locked_world
           (executor_block (stub_models (hello_stubs (py "lecture.mp3")))
              (py "lecture.mp3") locked_world).2
           (py "hello world") (py "SUM")
           (py "Q1" ++ [LF] ++ py "Q2" ++ [LF] ++ py "Q3") (OSError 13)).
  - vm_compute. reflexivity.
  - reflexivity.
Defined.

(** X5. A write that fails after the file was opened has already destroyed
    the earlier report.  When a value holds a code point that UTF-8 cannot
    encode, [process_audio] raises [UnicodeEncodeError] with the position of
    the first such code point in the report and leaves the file empty; when
    the disk fails, it raises the disk's error and the file holds only the
    bytes written until then. *)
Theorem failed_write_loses_the_old_report (ms : Models) (audio_path : str) (w wb : World)
    (t s q : str) :
  executor_block ms audio_path w = (Ok (t, s, q), wb) ->
  (forall i c,
     (forall e, disk_fault w <> Some (OpenFails e)) ->
     combined_text t s q !! i = Some c -> unencodable c ->
     (forall j c', j < i -> combined_text t s q !! j = Some c' -> ~ unencodable c') ->
     (process_audio ms audio_path w).1 = Raise (UnicodeEncodeError i) /\
     files (process_audio ms audio_path w).2 = <[FILE_PATH := []]> (files w)) /\
  (forall e n data,
     disk_fault w = Some (WriteFails e n) ->
     utf8_encode (combined_text t s q) = Ok data ->
     (process_audio ms audio_path w).1 = Raise e /\
     files (process_audio ms audio_path w).2 = <[FILE_PATH := take n data]> (files w)).
Proof.
  intros Hb.
  destruct (executor_block_spec ms audio_path w) as (rb & wb' & tr & Hb' & [Hfiles Hfault] & _).
  rewrite Hb in Hb'. injection Hb' as <- <-. split.
  - intros i c Hopen Hi Hc Hfirst.
    pose proof (utf8_encode_from_raise 0 _ i c Hi Hc Hfirst) as Henc.
    change (0 + i) with i in Henc.
    rewrite process_audio_run, Hb. simpl. rewrite write_text_run, Hfault.
    unfold utf8_encode. rewrite Henc.
    destruct (disk_fault w) as [[e|e n]|]; simpl; try by rewrite Hfiles.
    by destruct (Hopen e).
  - intros e n data Hf Henc.
    rewrite process_audio_run, Hb. simpl. rewrite write_text_run, Hfault, Hf, Henc. simpl.
    by rewrite insert_insert_eq, Hfiles.
Qed.

Lemma failed_write_loses_the_old_report_witness :
  ((process_audio (stub_models surrogate_stubs) (py "lecture.mp3") used_world).1 =
     Raise (UnicodeEncodeError 17) /\
   files (process_audio (stub_models surrogate_stubs) (py "lecture.mp3") used_world).2 =
     <[FILE_PATH := []]> (files used_world)) /\
  ((process_audio (stub_models (hello_stubs (py "lecture.mp3"))) (py "lecture.mp3")
      failing_disk_world).1 = Raise (OSError 5) /\
   files (process_audio (stub_models (hello_stubs (py "lecture.mp3"))) (py "lecture.mp3")
            failing_disk_world).2 =
     <[FILE_PATH := take 3 HEADER_TRANSCRIPT_UTF8]> (files failing_disk_world)).
Proof.
  split.
  - apply (proj1 (failed_write_loses_the_old_report
                    (stub_models surrogate_stubs) (py "lecture.mp3") used_world
                    (executor_block (stub_models surrogate_stubs)
                       (py "lecture.mp3") used_world).2
                    [0xD800%N] (py "SUM")
                    (py "Q1" ++ [LF] ++ py "Q2" ++ [LF] ++ py "Q3")
                    ltac:(vm_compute; reflexivity))
             17 0xD800%N).
    + intros e. discriminate.
    + reflexivity.
    + unfold unencodable. lia.
    + apply encodable_prefix. vm_compute. reflexivity.
  - apply (proj2 (failed_write_loses_the_old_report
                    (stub_models (hello_stubs (py "lecture.mp3"))) (py "lecture.mp3")
                    failing_disk_world
                    (executor_block (stub_models (hello_stubs (py "lecture.mp3")))
                       (py "lecture.mp3") failing_disk_world).2
                    (py "hello world") (py "SUM")
                    (py "Q1" ++ [LF] ++ py "Q2" ++ [LF] ++ py "Q3")
                    ltac:(vm_compute; reflexivity))
             (OSError 5) 3
             (report_bytes (utf8_or_empty (py "hello world")) (utf8_or_empty (py "SUM"))
                (utf8_or_empty (py "Q1" ++ [LF] ++ py "Q2" ++ [LF] ++ py "Q3")))).
    + reflexivity.
    + vm_compute. reflexivity.
Defined.

(** ** What the tasks of a pool leave in the event log *)

Lemma done_footprints_cons {A} (s : Slot A) (p : Pool A) f fs :
  done_footprints (s :: p) (f :: fs) =
  match s with
  | Done _ => f ++ done_footprints p fs
  | Pending _ => done_footprints p fs
  end.
Proof. by destruct s. Qed.

Lemma done_footprints_finish {A} (p : Pool A) fs i t r fp :
  p !! i = Some (Pending t) -> fs !! i = Some fp ->
  done_footprints (<[i := Done r]> p) fs ≡ₚ done_footprints p fs ++ fp.
Proof.
  revert i fs. induction p as [|s p IH]; intros i fs Hi Hfp; [done|].
  destruct fs as [|f fs]; [done|]. destruct i as [|i].
  - injection Hi as ->. injection Hfp as ->.
    change (<[0 := Done r]> (Pending t :: p)) with (Done r :: p).
    rewrite !done_footprints_cons. apply Permutation_app_comm.
  - change (<[S i := Done r]> (s :: p)) with (s :: <[i := Done r]> p).
    rewrite !done_footprints_cons. specialize (IH i fs Hi Hfp).
    destruct s as [t'|r']; [done|]. by rewrite IH, app_assoc.
Qed.

Lemma done_footprints_submit {A} (p : Pool A) fs t :
  done_footprints (p ++ [Pending t]) fs = done_footprints p fs.
Proof.
  revert fs. induction p as [|s p IH]; intros fs.
  - by destruct fs.
  - destruct fs as [|f fs]; [done|]. rewrite <- app_comm_cons, !done_footprints_cons.
    by rewrite IH.
Qed.

Lemma done_footprints_all {A} (p : Pool A) fs :
  pending_ids p = [] -> length p = length fs -> done_footprints p fs = concat fs.
Proof.
  unfold pending_ids. generalize 0. revert fs.
  induction p as [|[t|r] p IH]; intros fs b Hp Hl; destruct fs as [|f fs]; try done.
  rewrite done_footprints_cons. simpl in *. f_equal. apply (IH fs (S b)); [done|lia].
Qed.

Section Footprints.
Context {A : Type}.
Variable pid : PoolId.
Variable P : Event -> bool.
Variable fps : list (list Event).
Variable w0 : World.

Lemma footprint_inv_choice (p : Pool A) w :
  footprint_inv pid P fps w0 p w -> footprint_inv pid P fps w0 p (next_choice w).2.
Proof.
  intros (Hl & Ht & tr & Htr & Hfp). split; [done|]. split; [done|].
  exists tr. by rewrite trace_next_choice.
Qed.

Lemma footprint_inv_run (p : Pool A) w i t :
  footprint_inv pid P fps w0 p w -> p !! i = Some (Pending t) ->
  footprint_inv pid P fps w0
    (<[i := Done (t (log (EvTaskStart pid i) w)).1]> p)
    (log (EvTaskDone pid i) (t (log (EvTaskStart pid i) w)).2).
Proof.
  intros (Hl & Ht & tr & Htr & Hfp) Hi.
  destruct (lookup_lt_is_Some_2 fps i) as [fp Hfpi].
  { apply lookup_lt_Some in Hi. lia. }
  destruct (Ht i t fp Hi Hfpi (log (EvTaskStart pid i) w)) as (tt & Htt & Hperm).
  split; [by rewrite length_insert|]. split.
  - intros j t' fp' Hj Hfp'. destruct (decide (i = j)) as [->|Hne].
    + rewrite list_lookup_insert_eq in Hj by (by eapply lookup_lt_Some). done.
    + rewrite list_lookup_insert_ne in Hj by done. by eapply Ht.
  - exists (tr ++ EvTaskStart pid i :: tt ++ [EvTaskDone pid i]). split.
    + cbn [trace log]. rewrite Htt. cbn [trace log]. rewrite Htr.
      by rewrite <- !app_assoc.
    + rewrite filter_app, Hfp, Hperm. symmetry. by eapply done_footprints_finish.
Qed.

(** An event of the owner that is not selected changes nothing. *)
Lemma footprint_inv_log (p : Pool A) w ev :
  P ev = false -> footprint_inv pid P fps w0 p w -> footprint_inv pid P fps w0 p (log ev w).
Proof.
  intros Hev (Hl & Ht & tr & Htr & Hfp). split; [done|]. split; [done|].
  exists (tr ++ [ev]). split; [cbn [trace log]; by rewrite Htr, app_assoc|].
  rewrite filter_app, filter_cons_False, filter_nil, app_nil_r; [done|].
  rewrite Hev. by intros [].
Qed.

(** A new task joins the pool with the footprint planned for its slot. *)
Lemma footprint_inv_submit (p : Pool A) w t fp :
  P (EvSubmit pid (length p)) = false ->
  fps !! length p = Some fp -> task_footprint pid P (length p) t fp ->
  footprint_inv pid P fps w0 p w ->
  footprint_inv pid P fps w0 (p ++ [Pending t]) (log (EvSubmit pid (length p)) w).
Proof.
  intros Hev Hfp Hfoot HI. apply footprint_inv_log; [done|].
  destruct HI as (Hl & Ht & tr & Htr & Hperm). split; [|split].
  - rewrite length_app. simpl. apply lookup_lt_Some in Hfp. lia.
  - intros i t' fp' Hi Hfp'. destruct (decide (i < length p)) as [Hlt|Hge].
    + rewrite lookup_app_l in Hi by done. by eapply Ht.
    + rewrite lookup_app_r in Hi by lia.
      destruct (i - length p) as [|n] eqn:Hn; simpl in Hi; [|by destruct n].
      injection Hi as <-. assert (i = length p) as -> by lia.
      rewrite Hfp in Hfp'. by injection Hfp' as <-.
  - exists tr. split; [done|]. by rewrite done_footprints_submit.
Qed.

(** When every task is done, the selected events are all footprints. *)
Lemma footprint_inv_all_done (p : Pool A) w :
  footprint_inv pid P fps w0 p w -> pending_ids p = [] -> length p = length fps ->
  exists tr, trace w = trace w0 ++ tr /\ filter P tr ≡ₚ concat fps.
Proof.
  intros (_ & _ & tr & Htr & Hperm) Hdone Hl. exists tr. split; [done|].
  by rewrite Hperm, done_footprints_all.
Qed.
End Footprints.

(** *** The footprints of the question pool *)

Lemma concat_imap_singleton {X Y} (g : X -> Y) (l : list X) (f : nat -> X -> list Y) :
  (forall i x, f i x = [g x]) -> concat (imap f l) = g <$> l.
Proof.
  revert f. induction l as [|x l IH]; intros f Hf; [done|].
  simpl. rewrite Hf. simpl. f_equal. apply IH. intros i y. apply Hf.
Qed.

Lemma concat_imap_index {X Y} (g : nat -> Y) (l : list X) (f : nat -> X -> list Y) b :
  (forall i x, f i x = [g (b + i)]) -> concat (imap f l) = g <$> seq b (length l).
Proof.
  revert f b. induction l as [|x l IH]; intros f b Hf; [done|].
  simpl. rewrite Hf, Nat.add_0_r. simpl. f_equal. apply IH.
  intros i y. unfold compose. rewrite Hf. do 2 f_equal. lia.
Qed.

Section QuestionFootprints.
Variable ms : Models.
Variable P : Event -> bool.
Variable cs : list str.
Variable w0 : World.
Hypothesis P_owner : forall ev, owner_event QuestPool ev -> P ev = false.

Let fps : list (list Event) := imap (question_footprint P) cs.

Lemma question_task_footprint i c :
  task_footprint QuestPool P i (question_task ms c) (question_footprint P i c).
Proof.
  intros w. exists [generator_call c]. split; [|done].
  by destruct (question_task_run ms c w) as (_ & _ & ->).
Qed.

Lemma submit_all_footprint rest p w :
  footprint_inv QuestPool P fps w0 p w -> drop (length p) cs = rest ->
  exists p' w',
    submit_all QuestPool (question_task ms <$> rest) p w =
      ((p', seq (length p) (length rest)), w') /\
    footprint_inv QuestPool P fps w0 p' w' /\ length p' = length cs.
Proof.
  revert p w. induction rest as [|c rest IH]; intros p w HI Hdrop.
  - exists p, w. simpl. split; [done|]. split; [done|].
    destruct HI as (Hl & _). unfold fps in Hl. rewrite length_imap in Hl.
    apply drop_nil_inv in Hdrop. lia.
  - assert (cs !! length p = Some c) as Hc.
    { rewrite <- (Nat.add_0_r (length p)), <- lookup_drop, Hdrop. done. }
    assert (fps !! length p = Some (question_footprint P (length p) c)) as Hfp.
    { unfold fps. by rewrite list_lookup_imap, Hc. }
    rewrite fmap_cons. cbn [submit_all length]. unfold st_bind.
    destruct (submit_spec QuestPool (footprint_inv QuestPool P fps w0)
                (footprint_inv_choice QuestPool P fps w0)
                (footprint_inv_run QuestPool P fps w0)
                (question_task ms c) p w) as (p1 & w1 & -> & HI1 & [Hl1 _]).
    { eapply footprint_inv_submit; [by apply P_owner|done| |done].
      apply question_task_footprint. }
    rewrite length_app in Hl1. simpl in Hl1.
    destruct (IH p1 w1 HI1) as (p2 & w2 & -> & HI2 & Hl2).
    { rewrite Hl1, Nat.add_1_r. by rewrite (drop_S _ _ _ Hc) in Hdrop; injection Hdrop. }
    exists p2, w2. rewrite Hl1, Nat.add_1_r. done.
Qed.

Lemma collect_questions_footprint futures acc p w :
  footprint_inv QuestPool P fps w0 p w -> Forall (fun f => f < length p) futures ->
  exists p' w' r,
    collect_questions futures acc p w = ((p', r), w') /\
    footprint_inv QuestPool P fps w0 p' w' /\ length p' = length p.
Proof.
  revert acc p w. induction futures as [|f rest IH]; intros acc p w HI Hlt; simpl.
  - by exists p, w, (Ok acc).
  - apply Forall_cons in Hlt as [Hf Hrest]. unfold await, st_bind.
    destruct (future_result_spec QuestPool (footprint_inv QuestPool P fps w0)
                (footprint_inv_choice QuestPool P fps w0)
                (footprint_inv_run QuestPool P fps w0) f p w HI Hf)
      as (p1 & w1 & r1 & -> & HI1 & [Hl1 _] & Hr1).
    apply (footprint_inv_log _ _ _ _ _ _ (EvAwait QuestPool f)) in HI1;
      [|by apply P_owner].
    destruct r1 as [generated|e].
    + destruct (IH (acc ++ (generated_text <$> generated)) p1 _ HI1)
        as (p2 & w2 & r2 & -> & HI2 & Hl2); [by rewrite Hl1|].
      exists p2, w2, r2. split_and!; [done..|congruence].
    + by exists p1, (log (EvAwait QuestPool f) w1), (Raise e).
Qed.
End QuestionFootprints.

(** Whatever [P] selects among the events of the tasks, the run of
    [generate_questions] adds the footprint of every chunk's task, in some
    order, and nothing else that [P] selects. *)
Lemma question_list_footprint ms P text w :
  (forall ev, owner_event QuestPool ev -> P ev = false) ->
  exists tr,
    trace (question_list ms text w).2 = trace w ++ tr /\
    filter P tr ≡ₚ concat (imap (question_footprint P) (text_chunks text)).
Proof.
  intros HP.
  unfold question_list, bind, st_bind, print, with_executor, st_bind.
  set (w0 := log _ w). set (cs := text_chunks text).
  set (fps := imap (question_footprint P) cs).
  assert (footprint_inv (A := list GeneratedItem) QuestPool P fps w0 [] w0) as HI0.
  { split; [simpl; lia|]. split; [done|]. exists []. by rewrite app_nil_r. }
  destruct (submit_all_footprint ms P cs w0 HP cs [] w0 HI0 eq_refl)
    as (p1 & w1 & -> & HI1 & Hl1).
  cbn [length].
  destruct (collect_questions_footprint P cs w0 HP (seq 0 (length cs)) [] p1 w1 HI1)
    as (p2 & w2 & r & -> & HI2 & Hl2).
  { apply Forall_forall. intros f Hf%elem_of_seq. lia. }
  destruct (shutdown_spec QuestPool (footprint_inv QuestPool P fps w0)
              (footprint_inv_choice QuestPool P fps w0)
              (footprint_inv_run QuestPool P fps w0) p2 w2 HI2)
    as (p3 & w3 & -> & HI3 & [Hl3 _] & Hdone).
  destruct (footprint_inv_all_done QuestPool P fps w0 p3 w3 HI3 Hdone)
    as (tr & Htr & Hperm).
  { unfold fps. rewrite length_imap. congruence. }
  exists (EvPrint (py "Generating questions using FLAN-T5...") :: tr ++ [EvShutdown QuestPool]).
  split.
  - unfold st_ret. cbn [snd trace log]. rewrite Htr. unfold w0. cbn [trace log].
    by rewrite <- !app_assoc.
  - rewrite filter_cons_False by (rewrite HP; [by intros []|done]).
    rewrite filter_app, Hperm.
    rewrite (filter_cons_False _ (EvShutdown QuestPool)) by (rewrite HP; [by intros []|done]).
    by rewrite filter_nil, app_nil_r.
Qed.

Lemma generate_questions_world ms text w :
  (generate_questions ms text w).2 = (question_list ms text w).2.
Proof.
  unfold generate_questions, bind, st_bind.
  by destruct (question_list ms text w) as [[qs|e] w'].
Qed.

Lemma new_events_app w w' tr : trace w' = trace w ++ tr -> new_events w w' = tr.
Proof. intros H. unfold new_events. by rewrite H, drop_app_length. Qed.

Lemma generate_questions_footprint ms P text w :
  (forall ev, owner_event QuestPool ev -> P ev = false) ->
  filter P (new_events w (generate_questions ms text w).2)
    ≡ₚ concat (imap (question_footprint P) (text_chunks text)).
Proof.
  intros HP. destruct (question_list_footprint ms P text w HP) as (tr & Htr & Hperm).
  by rewrite generate_questions_world, (new_events_app _ _ _ Htr).
Qed.

(** X6. [generate_questions] calls the question generator exactly once for
    every chunk of the text, with the fixed prompt followed by the chunk and
    with the sampling arguments of the source, in an order the scheduler
    decides; it calls no other model.  This holds whether the calls answer
    or raise: a failed call does not keep the other chunks from being sent
    to the model. *)
Theorem one_generator_call_per_chunk (ms : Models) (text : str) (w : World) :
  filter model_call (new_events w (generate_questions ms text w).2)
    ≡ₚ generator_call <$> text_chunks text.
Proof.
  rewrite (generate_questions_footprint ms model_call text w).
  - by rewrite (concat_imap_singleton generator_call).
  - by intros [].
Qed.

Lemma completion_order_filter (tr : list Event) :
  completion_order (filter quest_done tr) = completion_order tr.
Proof.
  unfold completion_order. induction tr as [|ev tr IH]; [done|].
  destruct ev as [| | |[] i| | | | | | | |];
    try (rewrite filter_cons_False by (by intros []); exact IH).
  rewrite filter_cons_True by done. simpl. f_equal. exact IH.
Qed.

Lemma completion_order_done (l : list nat) :
  completion_order (EvTaskDone QuestPool <$> l) = l.
Proof. unfold completion_order. induction l as [|i l IH]; [done|]. simpl. f_equal. exact IH. Qed.

(** X7. When [generate_questions] returns or raises, every task it
    submitted has run to its end exactly once: the completions logged
    during the call are the futures [0 .. number of chunks - 1], each once,
    in some order.  Leaving the [with] block after an exception waits for
    the tasks that are still pending; none is cancelled. *)
Theorem every_question_task_completes_once (ms : Models) (text : str) (w : World) :
  completion_order (new_events w (generate_questions ms text w).2)
    ≡ₚ seq 0 (length (text_chunks text)).
Proof.
  rewrite <- completion_order_filter.
  rewrite <- (completion_order_done (seq 0 (length (text_chunks text)))).
  unfold completion_order at 1 2. apply omap_Permutation.
  rewrite (generate_questions_footprint ms quest_done text w).
  - by rewrite (concat_imap_index (EvTaskDone QuestPool) _ _ 0).
  - by intros [| |? ?|? ?|? ?|?| | | | | |].
Qed.

(** *** The model calls of a whole run *)

Section OrchestratorFootprints.
Variable ms : Models.
Variable t : str.
Variable wA : World.

(** The transcription is over in [wA]; from there on slot 0 adds no
    event, slot 1 is the summarization and slot 2 the question block. *)
Let fps : list (list Event) :=
  [ []; [EvSummarizer (text_chunks t) SUMMARY_KWARGS]; generator_call <$> text_chunks t ].

Lemma summarize_text_footprint i :
  task_footprint OrchPool model_call i (summarize_text ms t)
    [EvSummarizer (text_chunks t) SUMMARY_KWARGS].
Proof.
  intros w. exists [EvPrint SUMMARIZING; EvSummarizer (text_chunks t) SUMMARY_KWARGS].
  split; [|done]. rewrite summarize_text_run. cbn [snd trace log set_rng].
  by rewrite <- app_assoc.
Qed.

Lemma generate_questions_task_footprint i :
  task_footprint OrchPool model_call i (generate_questions ms t)
    (generator_call <$> text_chunks t).
Proof.
  intros w. destruct (question_list_footprint ms model_call t w) as (tr & Htr & Hperm).
  { by intros []. }
  exists tr. split; [by rewrite generate_questions_world|].
  rewrite filter_cons_False by (by intros []).
  rewrite filter_app, (filter_cons_False _ (EvTaskDone OrchPool i)) by (by intros []).
  rewrite filter_nil, app_nil_r, Hperm.
  by rewrite (concat_imap_singleton generator_call).
Qed.

Lemma orchestrator_shutdown_footprint (p : Pool str) w1 :
  footprint_inv OrchPool model_call fps wA p w1 -> length p = 3 ->
  exists tr,
    trace (shutdown OrchPool p w1).2 = trace wA ++ tr /\
    filter model_call tr ≡ₚ
      EvSummarizer (text_chunks t) SUMMARY_KWARGS :: (generator_call <$> text_chunks t).
Proof.
  intros HI Hl.
  destruct (shutdown_spec OrchPool (footprint_inv OrchPool model_call fps wA)
              (footprint_inv_choice OrchPool model_call fps wA)
              (footprint_inv_run OrchPool model_call fps wA) p w1 HI)
    as (p' & w' & -> & HI' & [Hl' _] & Hdone).
  destruct (footprint_inv_all_done OrchPool model_call fps wA p' w' HI' Hdone)
    as (tr & Htr & Hperm); [by rewrite Hl', Hl|].
  exists (tr ++ [EvShutdown OrchPool]). split.
  - cbn [snd trace log]. by rewrite Htr, app_assoc.
  - rewrite filter_app, (filter_cons_False _ (EvShutdown OrchPool)) by (by intros []).
    rewrite filter_nil, app_nil_r, Hperm. unfold fps. simpl. by rewrite app_nil_r.
Qed.

(** From the two submissions to the end of the [with] block: one call of
    the summarizer and one call of the generator per chunk, whatever the
    two tasks return. *)
Lemma downstream_block_footprint :
  exists tr,
    trace (shutdown OrchPool (downstream_block ms t [Done (Ok t)] wA).1.1
             (downstream_block ms t [Done (Ok t)] wA).2).2 = trace wA ++ tr /\
    filter model_call tr ≡ₚ
      EvSummarizer (text_chunks t) SUMMARY_KWARGS :: (generator_call <$> text_chunks t).
Proof.
  assert (footprint_inv OrchPool model_call fps wA [Done (Ok t)] wA) as HI0.
  { split; [simpl; lia|]. split; [by intros [|i]|]. exists []. by rewrite app_nil_r. }
  unfold downstream_block, st_bind.
  destruct (submit_spec OrchPool (footprint_inv OrchPool model_call fps wA)
              (footprint_inv_choice OrchPool model_call fps wA)
              (footprint_inv_run OrchPool model_call fps wA)
              (summarize_text ms t) [Done (Ok t)] wA) as (p1 & w1 & -> & HI1 & [Hl1 _]).
  { eapply footprint_inv_submit; [done|done|apply summarize_text_footprint|done]. }
  simpl in Hl1.
  destruct (submit_spec OrchPool (footprint_inv OrchPool model_call fps wA)
              (footprint_inv_choice OrchPool model_call fps wA)
              (footprint_inv_run OrchPool model_call fps wA)
              (generate_questions ms t) p1 w1) as (p2 & w2 & -> & HI2 & [Hl2 _]).
  { eapply footprint_inv_submit;
      [done|by rewrite Hl1|apply generate_questions_task_footprint|done]. }
  rewrite length_app, Hl1 in Hl2. simpl in Hl2. rewrite Hl1.
  unfold await, st_bind. cbn [length].
  destruct (future_result_spec OrchPool (footprint_inv OrchPool model_call fps wA)
              (footprint_inv_choice OrchPool model_call fps wA)
              (footprint_inv_run OrchPool model_call fps wA) 1 p2 w2 HI2)
    as (p3 & w3 & r3 & -> & HI3 & [Hl3 _] & _); [lia|].
  apply (footprint_inv_log _ _ _ _ _ _ (EvAwait OrchPool 1)) in HI3; [|done].
  destruct r3 as [summary|e]; cbn [fst snd].
  - destruct (future_result_spec OrchPool (footprint_inv OrchPool model_call fps wA)
                (footprint_inv_choice OrchPool model_call fps wA)
                (footprint_inv_run OrchPool model_call fps wA) 2 p3 _ HI3)
      as (p4 & w4 & r4 & -> & HI4 & [Hl4 _] & _); [lia|].
    apply (footprint_inv_log _ _ _ _ _ _ (EvAwait OrchPool 2)) in HI4; [|done].
    destruct r4 as [questions|e]; cbn [fst snd st_ret];
      apply orchestrator_shutdown_footprint; (done || congruence).
  - unfold st_ret. cbn [fst snd]. apply orchestrator_shutdown_footprint; (done || congruence).
Qed.
End OrchestratorFootprints.

Lemma filter_model_call_files (tw : list Event) :
  Forall file_event tw -> filter model_call tw = [].
Proof.
  induction 1 as [|ev tw Hev _ IH]; [done|].
  rewrite filter_cons_False; [done|]. destruct ev; try done; by intros [].
Qed.

Lemma executor_block_calls ms path w :
  exists later,
    filter model_call (new_events w (executor_block ms path w).2) = EvWhisper path :: later /\
    match (whisper_model ms path (rng w)).1 with
    | Raise _ => later = []
    | Ok res =>
        later ≡ₚ EvSummarizer (text_chunks (text res)) SUMMARY_KWARGS
                  :: (generator_call <$> text_chunks (text res))
    end.
Proof.
  unfold executor_block, with_executor, st_bind.
  destruct (transcription_phase ms path w) as (wA & Hsub & Hfr & HdA & HtA).
  rewrite Hsub. rewrite (await_run _ _ _ _ _ _ _ _ Hfr).
  destruct (whisper_model ms path (rng w)).1 as [res|e]; cbn [result_map].
  - destruct (downstream_block_footprint ms (text res) wA) as (tr & Htr & Hperm).
    destruct (downstream_block ms (text res) [Done (Ok (text res))] wA) as [[p r] w1].
    cbn [fst snd] in Htr.
    destruct (shutdown OrchPool p w1) as [[] w']. cbn [fst snd] in *.
    unfold st_ret. cbn [snd]. exists (filter model_call tr). split; [|done].
    rewrite (new_events_app w w' (transcription_events path ++ tr)).
    + by rewrite filter_app.
    + by rewrite Htr, HtA, app_assoc.
  - unfold st_ret. rewrite shutdown_finished. exists []. split; [|done].
    rewrite (new_events_app w _ (transcription_events path ++ [EvShutdown OrchPool])).
    + done.
    + cbn [snd trace log]. by rewrite HtA, app_assoc.
Qed.

(** X8. The model calls of one run of [process_audio].  Whisper is called
    first, once, on the audio path.  When it raises no other model is
    called.  When it answers, the summarizer is called once, on the list of
    all chunks of the transcript, and the question generator once per
    chunk, in an order the scheduler decides; this is so whatever these
    calls return: a failed summarization does not spare the generator
    calls, and a failed write of the report adds no call. *)
Theorem model_calls_of_a_run (ms : Models) (audio_path : str) (w : World) :
  exists later,
    filter model_call (new_events w (process_audio ms audio_path w).2)
      = EvWhisper audio_path :: later /\
    match (whisper_model ms audio_path (rng w)).1 with
    | Raise _ => later = []
    | Ok res =>
        later ≡ₚ EvSummarizer (text_chunks (text res)) SUMMARY_KWARGS
                  :: (generator_call <$> text_chunks (text res))
    end.
Proof.
  destruct (executor_block_calls ms audio_path w) as (later & Hcalls & Hlater).
  exists later. split; [|done].
  destruct (process_audio_trace ms audio_path w) as (tw & Htw & Hfile).
  destruct (executor_block_spec ms audio_path w) as (r & wb & tr & Hb & _ & Htr & _).
  rewrite Hb in *. cbn [snd] in *.
  rewrite (new_events_app w wb _ Htr) in Hcalls.
  rewrite (new_events_app w _ ((transcription_events audio_path ++ tr) ++ tw)).
  - by rewrite filter_app, Hcalls, (filter_model_call_files tw Hfile), app_nil_r.
  - by rewrite Htw, Htr, <- app_assoc.
Qed.

(** ** Questions of a concatenated transcript (lines 25 to 45) *)

Lemma gather_acc outs acc :
  gather outs acc = result_map (app acc) (gather outs []).
Proof.
  revert acc. induction outs as [|[g|e] outs IH]; intros acc; simpl.
  - by rewrite app_nil_r.
  - rewrite (IH (acc ++ _)), (IH (generated_text <$> g)).
    destruct (gather outs []); simpl; [by rewrite app_assoc|done].
  - done.
Qed.

Lemma gather_app o1 o2 :
  gather (o1 ++ o2) [] =
    match gather o1 [] with
    | Raise e => Raise e
    | Ok qa => result_map (app qa) (gather o2 [])
    end.
Proof.
  generalize (@nil str) at 1 2. induction o1 as [|[g|e] o1 IH]; intros acc; simpl.
  - apply gather_acc.
  - apply IH.
  - done.
Qed.

Lemma question_list_stub sb text w :
  (question_list (stub_models sb) text w).1 = gather (stub_answers sb text) [].
Proof.
  destruct (question_list_spec (stub_models sb) text w) as (outs & w' & -> & Hans & _).
  by rewrite (answers_of_stub _ _ _ Hans).
Qed.

(** X9. With deterministic models, the questions of a transcript cut at a
    chunk boundary are the questions of the first part followed by the
    questions of the second part; when a call fails in the first part its
    exception is the one of the whole, otherwise the one of the second
    part is.  The three runs may have different schedules. *)
Theorem questions_of_a_concatenation (sb : Stubs) (a b : str) (w wa wb : World) :
  length a mod 1024 = 0 ->
  (question_list (stub_models sb) (a ++ b) w).1 =
    match (question_list (stub_models sb) a wa).1 with
    | Raise e => Raise e
    | Ok qa => result_map (app qa) (question_list (stub_models sb) b wb).1
    end.
Proof.
  intros Hmod. rewrite !question_list_stub. unfold stub_answers.
  assert (text_chunks (a ++ b) = text_chunks a ++ text_chunks b) as ->.
  { assert (0 < CHUNK) as Hk by (unfold CHUNK; lia).
    apply (chunks_of_app CHUNK Hk (length a / 1024)).
    pose proof (Nat.div_mod_eq (length a) 1024) as H. unfold CHUNK. lia. }
  rewrite fmap_app. apply gather_app.
Qed.

Lemma questions_of_a_concatenation_witness :
  (question_list (stub_models echo_stubs) (replicate 1024 97%N ++ py "b") late_first_world).1 =
    match (question_list (stub_models echo_stubs) (replicate 1024 97%N) fresh_world).1 with
    | Raise e => Raise e
    | Ok qa =>
        result_map (app qa) (question_list (stub_models echo_stubs) (py "b") fresh_world).1
    end.
Proof. apply questions_of_a_concatenation. vm_compute. reflexivity. Defined.
